(** * Voice-synthesis pipeline of the text-to-voice page

    A shallow embedding of the decision logic of [src/app/page.tsx]
    (component [HomePage]: [generateVoice], [wordCount],
    [estimatedDuration]) and of [src/components/VoiceSelector.tsx]
    ([previewVoice]).

    Conventions of the embedding:
    - a JavaScript string is the list of its UTF-16 code units, so that
      [length], [substring], [startsWith], [split] and [trim] count and cut
      exactly where the engine does;
    - numbers that the code only stores or compares ([generationProgress],
      the voice parameters, [duration]) are rationals: every value met in
      the statements below is a dyadic number that a double holds exactly;
    - the React state of the component together with the browser facilities
      the code drives (interval timers, [fetch], the object-URL registry,
      [alert]) forms one record, [World], threaded through the code;
    - what the outside decides (the provider's answer, [Math.random()],
      [Date.now()], whether [loadedmetadata] ever fires) is an argument. *)

From Stdlib Require Import List NArith ZArith QArith Qround Bool Lia.
From Stdlib Require Import Ascii String DecimalString DecimalN.
Import ListNotations.
Close Scope Q_scope.

Set Implicit Arguments.
Set Warnings "-register-all".

(** ** JavaScript strings *)

Module JS.

Definition code_unit := N.
Definition jsstring := list code_unit.

(** A literal of the source, as code units (the literals of the source are
    all ASCII). *)
Definition lit (s : string) : jsstring :=
  List.map N_of_ascii (list_ascii_of_string s).

Definition jsstring_eqb (a b : jsstring) : bool :=
  if list_eq_dec N.eq_dec a b then true else false.

(** [WhiteSpace] and [LineTerminator] of ECMAScript: the code units that
    [String.prototype.trim] strips and that [\s] matches. *)
Definition is_ws (c : code_unit) : bool :=
  ((9 <=? c) && (c <=? 13) || (c =? 32) || (c =? 160) || (c =? 5760)
   || (8192 <=? c) && (c <=? 8202) || (c =? 8232) || (c =? 8233)
   || (c =? 8239) || (c =? 8287) || (c =? 12288) || (c =? 65279))%N.

Fixpoint trimStart (s : jsstring) : jsstring :=
  match s with
  | c :: s' => if is_ws c then trimStart s' else s
  | [] => []
  end.

Definition trimEnd (s : jsstring) : jsstring := rev (trimStart (rev s)).

Definition trim (s : jsstring) : jsstring := trimEnd (trimStart s).

(** [s.split(/\s+/)]: the pieces between the maximal runs of white space.
    A run at the very start or end leaves an empty piece there, and the
    empty string splits into one empty piece.  [in_sep] tells that the
    previous code unit belonged to a separator, [piece] is the piece being
    read. *)
Fixpoint split_ws_from (in_sep : bool) (piece : jsstring) (s : jsstring)
  : list jsstring :=
  match s with
  | [] => [piece]
  | c :: s' =>
      if is_ws c
      then if in_sep then split_ws_from true [] s'
           else piece :: split_ws_from true [] s'
      else split_ws_from false (piece ++ [c]) s'
  end.

Definition split_ws (s : jsstring) : list jsstring := split_ws_from false [] s.

(** [s.split(",")]: the pieces between single separator code units. *)
Fixpoint split_on_from (sep : code_unit) (piece : jsstring) (s : jsstring)
  : list jsstring :=
  match s with
  | [] => [piece]
  | c :: s' =>
      if (c =? sep)%N then piece :: split_on_from sep [] s'
      else split_on_from sep (piece ++ [c]) s'
  end.

Definition split_on (sep : code_unit) (s : jsstring) : list jsstring :=
  split_on_from sep [] s.

Fixpoint startsWith (s p : jsstring) : bool :=
  match p, s with
  | [], _ => true
  | _ :: _, [] => false
  | a :: p', b :: s' => (a =? b)%N && startsWith s' p'
  end.

Fixpoint includes (s sub : jsstring) : bool :=
  startsWith s sub ||
  match s with
  | [] => false
  | _ :: s' => includes s' sub
  end.

(** [s.substring(0, n)] *)
Definition substring0 (n : nat) (s : jsstring) : jsstring := firstn n s.

(** [Number.prototype.toString] on a non-negative integer below 1e21: the
    decimal digits. *)
Definition Number_toString (n : N) : jsstring :=
  lit (NilEmpty.string_of_uint (N.to_uint n)).

End JS.
Import JS.

(** ** Text statistics of the page *)

(** [word => word.length > 0] *)
Definition nonempty (word : jsstring) : bool := Nat.ltb 0 (List.length word).

(** [text.trim().split(/\s+/).filter(word => word.length > 0).length] *)
Definition wordCount (text : jsstring) : nat :=
  List.length (filter nonempty (split_ws (trim text))).

Definition charCount (text : jsstring) : nat := List.length text.

(** [Math.ceil(wordCount / 2.5)] *)
Definition estimatedDuration (text : jsstring) : Z :=
  Qceiling (inject_Z (Z.of_nat (wordCount text)) / (5 # 2))%Q.

(** The spec's reading of the word count: the number of maximal runs of
    code units that are not white space, counted at the first code unit of
    each run ([prev_ws] tells that the previous code unit, if any, was white
    space). *)
Fixpoint count_tokens_from (prev_ws : bool) (s : jsstring) : nat :=
  match s with
  | [] => 0
  | c :: s' =>
      if is_ws c then count_tokens_from true s'
      else (if prev_ws then 1 else 0) + count_tokens_from false s'
  end.

Definition count_tokens (s : jsstring) : nat := count_tokens_from true s.

(** ** Browser values the code handles *)

(** A [Blob]: its bytes and its media type. *)
Record Blob := mkBlob { blob_bytes : list N; blob_type : jsstring }.

Definition blob_size (b : Blob) : nat := List.length (blob_bytes b).

(** The value [response.json()] resolves to.  [JUndefined] is never parsed
    from a body, it is what reading an absent property gives.  An object is
    its list of own properties. *)
Inductive JSValue :=
| JUndefined
| JNull
| JBool (b : bool)
| JNumber (q : Q)
| JString (s : jsstring)
| JArray (elems : list JSValue)
| JObject (props : list (jsstring * JSValue)).

(** ToBoolean *)
Definition truthy (v : JSValue) : bool :=
  match v with
  | JUndefined | JNull => false
  | JBool b => b
  | JNumber q => negb (Qeq_bool q 0)
  | JString s => match s with [] => false | _ => true end
  | JArray _ | JObject _ => true
  end.

Fixpoint lookup_prop (k : jsstring) (props : list (jsstring * JSValue))
  : JSValue :=
  match props with
  | [] => JUndefined
  | (k', v) :: rest => if jsstring_eqb k k' then v else lookup_prop k rest
  end.

(** [v.name] for one of the names the code reads ([choices], [message],
    [content]); [None] is the [TypeError] of reading a property of [null] or
    [undefined].  Strings, arrays, numbers and booleans have no property of
    these names. *)
Definition get_prop (v : JSValue) (name : jsstring) : option JSValue :=
  match v with
  | JUndefined | JNull => None
  | JObject props => Some (lookup_prop name props)
  | _ => Some JUndefined
  end.

(** [v[0]] *)
Definition get_index0 (v : JSValue) : option JSValue :=
  match v with
  | JUndefined | JNull => None
  | JObject props => Some (lookup_prop (lit "0") props)
  | JArray elems => Some (nth 0 elems JUndefined)
  | JString s =>
      Some (match s with [] => JUndefined | c :: _ => JString [c] end)
  | _ => Some JUndefined
  end.

(** *** [atob]: the forgiving base64 decoding of the HTML standard *)

Definition is_ascii_ws (c : code_unit) : bool :=
  ((c =? 9) || (c =? 10) || (c =? 12) || (c =? 13) || (c =? 32))%N.

Definition base64_value (c : code_unit) : option N :=
  (if (65 <=? c) && (c <=? 90) then Some (c - 65)
   else if (97 <=? c) && (c <=? 122) then Some (c - 97 + 26)
   else if (48 <=? c) && (c <=? 57) then Some (c - 48 + 52)
   else if c =? 43 then Some 62
   else if c =? 47 then Some 63
   else None)%N.

Fixpoint base64_values (s : jsstring) : option (list N) :=
  match s with
  | [] => Some []
  | c :: s' =>
      match base64_value c, base64_values s' with
      | Some v, Some vs => Some (v :: vs)
      | _, _ => None
      end
  end.

(** Four sextets give three bytes; a rest of three gives two bytes and a
    rest of two gives one byte, the surplus bits being dropped. *)
Fixpoint base64_bytes (vs : list N) : list N :=
  (match vs with
   | a :: b :: c :: d :: rest =>
       (a * 4 + b / 16) :: ((b mod 16) * 16 + c / 4) :: ((c mod 4) * 64 + d)
       :: base64_bytes rest
   | [a; b; c] => [a * 4 + b / 16; (b mod 16) * 16 + c / 4]
   | [a; b] => [a * 4 + b / 16]
   | _ => []
   end)%N.

(** One or two [=] at the end are removed when the length is a multiple of
    four. *)
Definition strip_padding (s : jsstring) : jsstring :=
  if Nat.eqb (Nat.modulo (List.length s) 4) 0 then
    match rev s with
    | 61%N :: 61%N :: r => rev r
    | 61%N :: r => rev r
    | _ => s
    end
  else s.

(** [None] is the [InvalidCharacterError]. *)
Definition atob (data : jsstring) : option jsstring :=
  let d := strip_padding (filter (fun c => negb (is_ascii_ws c)) data) in
  if Nat.eqb (Nat.modulo (List.length d) 4) 1 then None
  else option_map base64_bytes (base64_values d).

(** The argument of [atob] is converted to a string first: [undefined], the
    value of [parts[1]] when there is no second part, becomes the text
    [undefined]. *)
Definition ToString_opt (s : option jsstring) : jsstring :=
  match s with
  | Some s => s
  | None => lit "undefined"
  end.

(** The loop [bytes[i] = binaryString.charCodeAt(i)] into a [Uint8Array]. *)
Definition Uint8Array_of (binaryString : jsstring) : list N :=
  List.map (fun c => (c mod 256)%N) binaryString.

(** ** The data model of the page *)

Record VoiceSettings := mkVoiceSettings {
  vs_voice : jsstring;
  vs_speed : Q;
  vs_pitch : Q;
  vs_stability : Q;
  vs_clarity : Q
}.

(** [audioUrl] is the object URL, named by its rank in the registry of the
    page; [createdAt] is a clock reading in milliseconds. *)
Record GeneratedAudio := mkGeneratedAudio {
  ga_id : jsstring;
  ga_text : jsstring;
  ga_voice : jsstring;
  ga_audioUrl : nat;
  ga_duration : Q;
  ga_createdAt : N;
  ga_settings : VoiceSettings
}.

(** A response as the code sees it: the status, the [content-type] header,
    what [json()] resolves to ([None]: the body is not JSON and [json()]
    rejects) and what [blob()] resolves to. *)
Record Response := mkResponse {
  status : N;
  content_type : option jsstring;
  json_body : option JSValue;
  blob_body : Blob
}.

Definition ok (r : Response) : bool :=
  ((200 <=? status r) && (status r <=? 299))%N.

Inductive FetchResult :=
| Rejected
| Resolved (r : Response).

(** The calls made through [fetch]. *)
Inductive Fetch :=
| ProviderRequest (text voice : jsstring) (stability similarity_boost : Q)
| AudioFetch (url : jsstring).

Inductive Exn :=
| HttpError (st : N)
| FailedToFetchAudio
| UnexpectedResponseFormat
| NoAudioData
| EmptyResponse
| FetchRejected
| TypeError
| SyntaxError
| InvalidCharacterError.

(** ** The page and its browser *)

(** What an invocation of [generateVoice] that passed the guard holds on
    to while it awaits the provider: the [text] and [voiceSettings] of the
    render it was created in, and its [progressInterval]. *)
Record Closure := mkClosure {
  c_text : jsstring;
  c_voiceSettings : VoiceSettings;
  c_progressInterval : N
}.

Record World := mkWorld {
  (* state of HomePage *)
  text : jsstring;
  isGenerating : bool;
  generationProgress : Q;
  currentAudio : option GeneratedAudio;
  audioHistory : list GeneratedAudio;
  voiceSettings : VoiceSettings;
  (* browser *)
  intervals : list N;          (* interval timers not yet cleared *)
  nextInterval : N;            (* the id [setInterval] hands out next *)
  fetches : list Fetch;        (* calls made so far, oldest first *)
  objectURLs : list Blob;      (* registry of [URL.createObjectURL] *)
  alerts : nat;                (* [alert] boxes shown *)
  awaiting : list Closure      (* invocations awaiting the provider *)
}.

Definition initialVoiceSettings : VoiceSettings :=
  mkVoiceSettings (lit "rachel") 1 1 (3 # 4) (3 # 4).

Definition initialWorld : World :=
  mkWorld [] false 0 None [] initialVoiceSettings [] 0 [] [] 0 [].

Definition setText (t : jsstring) (w : World) : World :=
  mkWorld t (isGenerating w) (generationProgress w) (currentAudio w)
    (audioHistory w) (voiceSettings w) (intervals w) (nextInterval w)
    (fetches w) (objectURLs w) (alerts w) (awaiting w).

Definition setIsGenerating (b : bool) (w : World) : World :=
  mkWorld (text w) b (generationProgress w) (currentAudio w)
    (audioHistory w) (voiceSettings w) (intervals w) (nextInterval w)
    (fetches w) (objectURLs w) (alerts w) (awaiting w).

(** The setters of React take the new value or a function of the previous
    one; both forms are written with the function. *)
Definition setGenerationProgress (f : Q -> Q) (w : World) : World :=
  mkWorld (text w) (isGenerating w) (f (generationProgress w)) (currentAudio w)
    (audioHistory w) (voiceSettings w) (intervals w) (nextInterval w)
    (fetches w) (objectURLs w) (alerts w) (awaiting w).

Definition setCurrentAudio (a : option GeneratedAudio) (w : World) : World :=
  mkWorld (text w) (isGenerating w) (generationProgress w) a
    (audioHistory w) (voiceSettings w) (intervals w) (nextInterval w)
    (fetches w) (objectURLs w) (alerts w) (awaiting w).

Definition setAudioHistory
  (f : list GeneratedAudio -> list GeneratedAudio) (w : World) : World :=
  mkWorld (text w) (isGenerating w) (generationProgress w) (currentAudio w)
    (f (audioHistory w)) (voiceSettings w) (intervals w) (nextInterval w)
    (fetches w) (objectURLs w) (alerts w) (awaiting w).

Definition setVoiceSettings (v : VoiceSettings) (w : World) : World :=
  mkWorld (text w) (isGenerating w) (generationProgress w) (currentAudio w)
    (audioHistory w) v (intervals w) (nextInterval w)
    (fetches w) (objectURLs w) (alerts w) (awaiting w).

Definition setInterval (w : World) : N * World :=
  (nextInterval w,
   mkWorld (text w) (isGenerating w) (generationProgress w) (currentAudio w)
     (audioHistory w) (voiceSettings w) (intervals w ++ [nextInterval w])
     (N.succ (nextInterval w))
     (fetches w) (objectURLs w) (alerts w) (awaiting w)).

Definition clearInterval (id : N) (w : World) : World :=
  mkWorld (text w) (isGenerating w) (generationProgress w) (currentAudio w)
    (audioHistory w) (voiceSettings w)
    (filter (fun i => negb (N.eqb i id)) (intervals w)) (nextInterval w)
    (fetches w) (objectURLs w) (alerts w) (awaiting w).

Definition issueFetch (f : Fetch) (w : World) : World :=
  mkWorld (text w) (isGenerating w) (generationProgress w) (currentAudio w)
    (audioHistory w) (voiceSettings w) (intervals w) (nextInterval w)
    (fetches w ++ [f]) (objectURLs w) (alerts w) (awaiting w).

Definition createObjectURL (b : Blob) (w : World) : nat * World :=
  (List.length (objectURLs w),
   mkWorld (text w) (isGenerating w) (generationProgress w) (currentAudio w)
     (audioHistory w) (voiceSettings w) (intervals w) (nextInterval w)
     (fetches w) (objectURLs w ++ [b]) (alerts w) (awaiting w)).

Definition alert (w : World) : World :=
  mkWorld (text w) (isGenerating w) (generationProgress w) (currentAudio w)
    (audioHistory w) (voiceSettings w) (intervals w) (nextInterval w)
    (fetches w) (objectURLs w) (S (alerts w)) (awaiting w).

Definition setAwaiting (l : list Closure) (w : World) : World :=
  mkWorld (text w) (isGenerating w) (generationProgress w) (currentAudio w)
    (audioHistory w) (voiceSettings w) (intervals w) (nextInterval w)
    (fetches w) (objectURLs w) (alerts w) l.

(** ** Code that may throw, or wait for ever *)

(** The result of running a piece of an [async] function: a value, an
    exception, or [Pending] when a promise it awaits never settles. *)
Inductive Outcome (A : Type) :=
| Ret (a : A)
| Throw (e : Exn)
| Pending.
Arguments Throw {A} e.
Arguments Pending {A}.

Definition M (A : Type) : Type := World -> Outcome A * World.

Definition ret {A} (a : A) : M A := fun w => (Ret a, w).
Definition throw {A} (e : Exn) : M A := fun w => (Throw e, w).
Definition pending {A} : M A := fun w => (Pending, w).

Definition bind {A B} (m : M A) (k : A -> M B) : M B :=
  fun w =>
    match m w with
    | (Ret a, w') => k a w'
    | (Throw e, w') => (Throw e, w')
    | (Pending, w') => (Pending, w')
    end.

Definition modify (f : World -> World) : M unit := fun w => (Ret tt, f w).

Definition lift {A} (f : World -> A * World) : M A :=
  fun w => let (a, w') := f w in (Ret a, w').

(** A property read that throws [TypeError] on [null] and [undefined]. *)
Definition orTypeError {A} (o : option A) : M A :=
  match o with
  | Some a => ret a
  | None => throw TypeError
  end.

(** What awaiting a [fetch] gives. *)
Definition await_fetch (r : FetchResult) : M Response :=
  match r with
  | Resolved resp => ret resp
  | Rejected => throw FetchRejected
  end.

(** [await response.json()] *)
Definition await_json (r : Response) : M JSValue :=
  match json_body r with
  | Some v => ret v
  | None => throw SyntaxError
  end.

Declare Scope js_scope.
Delimit Scope js_scope with js.
Notation "x <- m ;; k" := (bind m (fun x => k))
  (at level 61, m at next level, right associativity) : js_scope.
Notation "m ;; k" := (bind m (fun _ => k))
  (at level 61, right associativity) : js_scope.
Open Scope js_scope.

(** ** Decoding the provider's response *)

(** [contentType?.includes(sub)] as a condition: no header, no match. *)
Definition contentType_includes (contentType : option jsstring)
  (sub : jsstring) : bool :=
  match contentType with
  | Some s => includes s sub
  | None => false
  end.

(** [jsonResponse.choices && jsonResponse.choices[0] &&
    jsonResponse.choices[0].message] as a condition *)
Definition has_message (jsonResponse : JSValue) : M bool :=
  choices <- orTypeError (get_prop jsonResponse (lit "choices")) ;;
  if truthy choices then
    first <- orTypeError (get_index0 choices) ;;
    if truthy first then
      message <- orTypeError (get_prop first (lit "message")) ;;
      ret (truthy message)
    else ret false
  else ret false.

(** [jsonResponse.choices[0].message.content] *)
Definition message_content (jsonResponse : JSValue) : M JSValue :=
  choices <- orTypeError (get_prop jsonResponse (lit "choices")) ;;
  first <- orTypeError (get_index0 choices) ;;
  message <- orTypeError (get_prop first (lit "message")) ;;
  orTypeError (get_prop message (lit "content")).

(** The branch of a [data:audio] message, the same text in both files:
    [message.split(",")[1]], [atob], the byte loop, the [Blob]. *)
Definition decode_dataURI (message : jsstring) : M Blob :=
  let base64Data := nth_error (split_on 44%N message) 1 in
  match atob (ToString_opt base64Data) with
  | Some binaryString =>
      let bytes := Uint8Array_of binaryString in
      ret (mkBlob bytes (lit "audio/mpeg"))
  | None => throw InvalidCharacterError
  end.

(** [fetch(message)] and its [await]: the call is recorded, the network
    [net] answers. *)
Definition fetch_audio (net : jsstring -> FetchResult) (url : jsstring)
  : M Response :=
  modify (issueFetch (AudioFetch url)) ;;
  await_fetch (net url).

(** page.tsx, lines 109-150. *)
Definition generateVoice_decode (net : jsstring -> FetchResult)
  (response : Response) : M Blob :=
  let contentType := content_type response in
  if contentType_includes contentType (lit "application/json") then
    jsonResponse <- await_json response ;;
    present <- has_message jsonResponse ;;
    if present then
      message <- message_content jsonResponse ;;
      match message with
      | JString m =>
          if startsWith m (lit "data:audio") then decode_dataURI m
          else if startsWith m (lit "http") || startsWith m (lit "https") then
            audioResponse <- fetch_audio net m ;;
            if ok audioResponse then ret (blob_body audioResponse)
            else throw FailedToFetchAudio
          else throw UnexpectedResponseFormat
      | _ => throw UnexpectedResponseFormat
      end
    else throw NoAudioData
  else if contentType_includes contentType (lit "audio") then
    ret (blob_body response)
  else
    let audioBlob := blob_body response in
    if Nat.eqb (blob_size audioBlob) 0 then throw EmptyResponse
    else ret audioBlob.

(** VoiceSelector.tsx, lines 130-157; [None] is the early [return] of
    [previewVoice], which leaves without a payload. *)
Definition previewVoice_decode (net : jsstring -> FetchResult)
  (response : Response) : M (option Blob) :=
  let contentType := content_type response in
  if contentType_includes contentType (lit "application/json") then
    jsonResponse <- await_json response ;;
    present <- has_message jsonResponse ;;
    if present then
      message <- message_content jsonResponse ;;
      match message with
      | JString m =>
          if startsWith m (lit "data:audio") then
            audioBlob <- decode_dataURI m ;; ret (Some audioBlob)
          else if startsWith m (lit "http") || startsWith m (lit "https") then
            audioResponse <- fetch_audio net m ;;
            ret (Some (blob_body audioResponse))
          else ret None
      | _ => ret None
      end
    else ret None
  else ret (Some (blob_body response)).

(** The payload a decoding ends with, if any. *)
Definition main_payload (o : Outcome Blob) : option Blob :=
  match o with
  | Ret b => Some b
  | _ => None
  end.

Definition preview_payload (o : Outcome (option Blob)) : option Blob :=
  match o with
  | Ret (Some b) => Some b
  | _ => None
  end.

(** ** [generateVoice] *)

(** What the outside contributes to one generation after the request has
    left: the provider's answer, the network for an indirect audio URL, the
    duration reported with [loadedmetadata] ([None]: the event never
    fires), and the two clock readings. *)
Record Env := mkEnv {
  provider : FetchResult;
  net : jsstring -> FetchResult;
  loadedmetadata : option Q;
  Date_now : N;
  new_Date : N
}.

(** [s || d] on strings and [x || d] on numbers *)
Definition or_string (s d : jsstring) : jsstring :=
  match s with
  | [] => d
  | _ => s
  end.

Definition or_number (x d : Q) : Q := if Qeq_bool x 0 then d else x.

Definition providerRequest (t : jsstring) (v : VoiceSettings) : Fetch :=
  ProviderRequest t (or_string (vs_voice v) (lit "rachel"))
    (or_number (vs_stability v) (3 # 4)) (or_number (vs_clarity v) (3 # 4)).

(** The updater the interval passes to [setGenerationProgress]; [random] is
    the value of [Math.random()]. *)
Definition progress_update (random : Q) (prev : Q) : Q :=
  if Qle_bool 90 prev then prev else (prev + random * 15)%Q.

Definition is_empty (s : jsstring) : bool :=
  match s with
  | [] => true
  | _ => false
  end.

(** The guard of line 51: [!text.trim() || isGenerating]. *)
Definition guard (w : World) : bool :=
  is_empty (trim (text w)) || isGenerating w.

(** The synchronous part of [generateVoice], up to the first [await]. *)
Definition generateVoice (w : World) : World :=
  if guard w then w
  else
    let t := text w in
    let v := voiceSettings w in
    let w := setIsGenerating true w in
    let w := setGenerationProgress (fun _ => 0%Q) w in
    let (progressInterval, w) := setInterval w in
    let w := issueFetch (providerRequest t v) w in
    setAwaiting (awaiting w ++ [mkClosure t v progressInterval]) w.

(** [text.substring(0, 100) + (text.length > 100 ? "..." : "")] *)
Definition storedText (t : jsstring) : jsstring :=
  substring0 100 t ++ (if Nat.ltb 100 (List.length t) then lit "..." else []).

Definition await_loadedmetadata (d : option Q) : M Q :=
  match d with
  | Some q => ret q
  | None => pending
  end.

(** The [try] block from the [await] of the provider on; it yields the
    entry it committed. *)
Definition generateVoice_try (c : Closure) (env : Env) : M GeneratedAudio :=
  response <- await_fetch (provider env) ;;
  modify (clearInterval (c_progressInterval c)) ;;
  modify (setGenerationProgress (fun _ => 100%Q)) ;;
  (if negb (ok response) then throw (HttpError (status response))
   else ret tt) ;;
  audioBlob <- generateVoice_decode (net env) response ;;
  audioUrl <- lift (createObjectURL audioBlob) ;;
  duration <- await_loadedmetadata (loadedmetadata env) ;;
  let newAudio :=
    mkGeneratedAudio (Number_toString (Date_now env))
      (storedText (c_text c)) (vs_voice (c_voiceSettings c)) audioUrl
      duration (new_Date env) (c_voiceSettings c) in
  modify (setCurrentAudio (Some newAudio)) ;;
  modify (setAudioHistory (fun prev => newAudio :: firstn 9 prev)) ;;
  ret newAudio.

Definition finally (w : World) : World :=
  setGenerationProgress (fun _ => 0%Q) (setIsGenerating false w).

(** [try], [catch] and [finally]: an exception shows the alert, and both
    ways of leaving run the [finally] block.  An invocation whose awaited
    promise never settles runs neither. *)
Definition generateVoice_resume (c : Closure) (env : Env) (w : World)
  : Outcome GeneratedAudio * World :=
  match generateVoice_try c env w with
  | (Ret a, w') => (Ret a, finally w')
  | (Throw e, w') => (Throw e, finally (alert w'))
  | (Pending, w') => (Pending, w')
  end.

(** ** The page as an event-driven machine *)

(** Events are handled one at a time, each on the state its predecessors
    left: React renders again, and builds [generateVoice] anew from the
    current [text], [voiceSettings] and [isGenerating], before the next
    event is delivered.  The part of [generateVoice] that follows the
    [await] of the provider is run in one piece, [env] telling how each of
    the promises it awaits further (the body, an indirect fetch, the
    metadata of the audio) settles. *)

(** What can happen to the page: the user clicks Generate, one of the
    interval timers fires (drawing [random]), the provider's promise of the
    [i]-th awaiting invocation settles, the user edits the text or the
    settings, or picks the [i]-th entry of the history. *)
Inductive Event :=
| ClickGenerate
| IntervalFires (id : N) (random : Q)
| ProviderSettles (i : nat) (env : Env)
| TextEdited (t : jsstring)
| SettingsEdited (v : VoiceSettings)
| HistorySelected (i : nat).

Fixpoint remove_nth {A} (i : nat) (l : list A) : list A :=
  match l, i with
  | [], _ => []
  | _ :: l', O => l'
  | x :: l', S i' => x :: remove_nth i' l'
  end.

Definition intervalFires (id : N) (random : Q) (w : World) : World :=
  if existsb (N.eqb id) (intervals w)
  then setGenerationProgress (progress_update random) w
  else w.

(** The invocation resumed, with how it ended; [None] when no invocation
    is awaiting at rank [i]. *)
Definition providerSettles (i : nat) (env : Env) (w : World)
  : option (Outcome GeneratedAudio) * World :=
  match nth_error (awaiting w) i with
  | None => (None, w)
  | Some c =>
      let (o, w') :=
        generateVoice_resume c env (setAwaiting (remove_nth i (awaiting w)) w)
      in (Some o, w')
  end.

Definition historySelected (i : nat) (w : World) : World :=
  match nth_error (audioHistory w) i with
  | Some a => setCurrentAudio (Some a) w
  | None => w
  end.

Definition step (e : Event) (w : World) : World :=
  match e with
  | ClickGenerate => generateVoice w
  | IntervalFires id random => intervalFires id random w
  | ProviderSettles i env => snd (providerSettles i env w)
  | TextEdited t => setText t w
  | SettingsEdited v => setVoiceSettings v w
  | HistorySelected i => historySelected i w
  end.

Fixpoint run (es : list Event) (w : World) : World :=
  match es with
  | [] => w
  | e :: es' => run es' (step e w)
  end.

(** The entry an event commits, if it is the successful end of a
    generation. *)
Definition committed (e : Event) (w : World) : option GeneratedAudio :=
  match e with
  | ProviderSettles i env =>
      match fst (providerSettles i env w) with
      | Some (Ret a) => Some a
      | _ => None
      end
  | _ => None
  end.

(** How a settling event ends: with an exception or not. *)
Definition failed (e : Event) (w : World) : bool :=
  match e with
  | ProviderSettles i env =>
      match fst (providerSettles i env w) with
      | Some (Throw _) => true
      | _ => false
      end
  | _ => false
  end.

(** The entries committed along a run, oldest first. *)
Fixpoint generated (es : list Event) (w : World) : list GeneratedAudio :=
  match es with
  | [] => []
  | e :: es' =>
      match committed e w with
      | Some a => a :: generated es' (step e w)
      | None => generated es' (step e w)
      end
  end.

(** Events that do not resume an invocation. *)
Definition settles (e : Event) : bool :=
  match e with
  | ProviderSettles _ _ => true
  | _ => false
  end.

Definition is_tick (e : Event) : bool :=
  match e with
  | IntervalFires _ _ => true
  | _ => false
  end.


(** The provider requests among the calls made. *)
Definition provider_calls (w : World) : nat :=
  List.length
    (filter (fun f => match f with ProviderRequest _ _ _ _ => true
                               | AudioFetch _ => false end)
       (fetches w)).

(** Several calls recorded at once, for stating what a piece of code adds
    to the record of calls. *)
Definition issueFetches (fl : list Fetch) (w : World) : World :=
  mkWorld (text w) (isGenerating w) (generationProgress w) (currentAudio w)
    (audioHistory w) (voiceSettings w) (intervals w) (nextInterval w)
    (fetches w ++ fl) (objectURLs w) (alerts w) (awaiting w).

(** Code that leaves the world as it found it. *)
Definition pure {A} (m : M A) : Prop := forall w, snd (m w) = w.

(** The page when the provider's response has arrived: lines 102-103. *)
Definition arrived (c : Closure) (w : World) : World :=
  setGenerationProgress (fun _ => 100%Q)
    (clearInterval (c_progressInterval c) w).

(** The entry of lines 159-167, for an object URL and a duration. *)
Definition newAudioOf (c : Closure) (env : Env) (audioUrl : nat) (duration : Q)
  : GeneratedAudio :=
  mkGeneratedAudio (Number_toString (Date_now env))
    (storedText (c_text c)) (vs_voice (c_voiceSettings c)) audioUrl
    duration (new_Date env) (c_voiceSettings c).

(** Lines 169-170. *)
Definition commit (a : GeneratedAudio) (w : World) : World :=
  setAudioHistory (fun prev => a :: firstn 9 prev)
    (setCurrentAudio (Some a) w).

(** Code that always ends, with a value or an exception. *)
Definition settled {A} (m : M A) : Prop := forall w, fst (m w) <> Pending.

(** The spec's words for the base64 segment of a data URI.  [after_first
    sep s] is what follows the first [sep] in [s], if there is one;
    [upto sep s] is [s] up to its first [sep], or all of [s]. *)
Fixpoint after_first (sep : code_unit) (s : jsstring) : option jsstring :=
  match s with
  | [] => None
  | c :: s' => if (c =? sep)%N then Some s' else after_first sep s'
  end.

Fixpoint upto (sep : code_unit) (s : jsstring) : jsstring :=
  match s with
  | [] => []
  | c :: s' => if (c =? sep)%N then [] else c :: upto sep s'
  end.

(** What lies between the first comma and the next one (or the end). *)
Definition between_commas (s : jsstring) : option jsstring :=
  option_map (upto 44%N) (after_first 44%N s).

(** The envelope of the provider: [{ choices: [{ message: { content } }] }]. *)
Definition envelope (content : JSValue) : JSValue :=
  JObject [(lit "choices",
            JArray [JObject [(lit "message",
                              JObject [(lit "content", content)])]])].

Definition jsonResponse_of (content : JSValue) : Response :=
  mkResponse 200 (Some (lit "application/json")) (Some (envelope content))
    (mkBlob [] (lit "application/json")).

(** The value of [Date.now()] at each commit of a run, oldest first. *)
Fixpoint commit_clocks (es : list Event) (w : World) : list N :=
  match es with
  | [] => []
  | e :: es' =>
      match e, committed e w with
      | ProviderSettles _ env, Some _ =>
          Date_now env :: commit_clocks es' (step e w)
      | _, _ => commit_clocks es' (step e w)
      end
  end.

(** Code whose exceptions all satisfy [P]. *)
Definition throws {A} (P : Exn -> Prop) (m : M A) : Prop :=
  forall w e, fst (m w) = Throw e -> P e.

(** ** Concrete scenarios *)

(** A direct audio answer of three bytes. *)
Definition audioResponse : Response :=
  mkResponse 200 (Some (lit "audio/mpeg")) None
    (mkBlob [73; 68; 51]%N (lit "audio/mpeg")).

Definition noNetwork : jsstring -> FetchResult := fun _ => Rejected.

(** The provider answers with audio, the metadata load reports 1.5 s, the
    clock reads [t]. *)
Definition env_ok (t : N) : Env :=
  mkEnv (Resolved audioResponse) noNetwork (Some (3 # 2)%Q) t t.

(** The [k]-th generation of a session in which every earlier generation
    has ended: a click, one tick of its interval, the provider's answer. *)
Definition one_generation (k : N) : list Event :=
  [ClickGenerate; IntervalFires k (1 # 2)%Q;
   ProviderSettles 0 (env_ok (1757789650000 + k))].

Definition eleven_generations : list Event :=
  TextEdited (lit "hello world")
  :: flat_map one_generation [0; 1; 2; 3; 4; 5; 6; 7; 8; 9; 10]%N.

Definition eleven_entries : list GeneratedAudio :=
  generated eleven_generations initialWorld.

(** The page with a text typed in, nothing in flight. *)
Definition typedWorld : World := setText (lit "hello world") initialWorld.

(** Clicks, a tick and edits while the first generation is in flight. *)
Definition impatient : list Event :=
  [ClickGenerate; IntervalFires 0 (1 # 2)%Q; TextEdited (lit "hello");
   ClickGenerate; HistorySelected 0; ClickGenerate].

Definition impatient_session : list Event :=
  ClickGenerate :: impatient ++ [ClickGenerate].

(** A text of 150 code units: fifteen times [0123456789]. *)
Definition longText : jsstring :=
  flat_map (fun _ => lit "0123456789") (seq 0 15).

Definition longTextWorld : World := setText longText initialWorld.

(** The provider answers 500. *)
Definition errorResponse : Response :=
  mkResponse 500 (Some (lit "text/plain")) None (mkBlob [] (lit "text/plain")).

Definition env_http_error : Env :=
  mkEnv (Resolved errorResponse) noNetwork (Some (3 # 2)%Q) 0 0.

(** The request never gets an answer: the network is down. *)
Definition env_rejected : Env :=
  mkEnv Rejected noNetwork (Some (3 # 2)%Q) 0 0.

(** The page after one successful generation. *)
Definition usedWorld : World := run (one_generation 0) typedWorld.

Definition two_ticks : list Event :=
  [IntervalFires 1 (1 # 2)%Q; IntervalFires 1 (1 # 4)%Q].

(** A click, eleven ticks that draw 0.5 and one tick that draws 0.75, the
    provider not having answered yet. *)
Definition overshoot : list Event :=
  ClickGenerate
  :: List.map (fun _ => IntervalFires 0 (1 # 2)%Q) (seq 0 11)
  ++ [IntervalFires 0 (3 # 4)%Q].

(** A click whose request is rejected. *)
Definition rejected_generation : list Event :=
  [ClickGenerate; ProviderSettles 0 env_rejected].

(** An answer of no recognised content type and no body. *)
Definition emptyResponse : Response :=
  mkResponse 200 (Some (lit "text/plain")) None (mkBlob [] (lit "text/plain")).

(** The envelope points to an audio URL, and that URL answers 404 with a
    page of its own. *)
Definition indirectResponse : Response :=
  jsonResponse_of (JString (lit "https://x/y.mp3")).

Definition notFound : Response :=
  mkResponse 404 (Some (lit "text/html")) None
    (mkBlob [60; 104; 49; 62]%N (lit "text/html")).

Definition net404 : jsstring -> FetchResult := fun _ => Resolved notFound.

(** A data URI with a second comma. *)
Definition twoCommas : jsstring := lit "data:audio/mpeg;base64,AAAA,BBBB".

(** Two generations that end within the same millisecond of the clock. *)
Definition same_millisecond : list Event :=
  [TextEdited (lit "hello world");
   ClickGenerate; ProviderSettles 0 (env_ok 1757789650147);
   ClickGenerate; ProviderSettles 0 (env_ok 1757789650147)].

(** ** The voice selector and [previewVoice] *)

Inductive Gender := male | female.

Record Voice := mkVoice {
  v_id : jsstring;
  v_name : jsstring;
  v_gender : Gender;
  v_accent : jsstring;
  v_description : jsstring
}.

(** The catalog of VoiceSelector.tsx, lines 19-83. *)
Definition voices : list Voice :=
  [ mkVoice (lit "rachel") (lit "Rachel") female (lit "American")
      (lit "Warm, professional voice perfect for narrations");
    mkVoice (lit "domi") (lit "Domi") female (lit "American")
      (lit "Strong, confident voice with clear articulation");
    mkVoice (lit "bella") (lit "Bella") female (lit "American")
      (lit "Soft, gentle voice ideal for storytelling");
    mkVoice (lit "antoni") (lit "Antoni") male (lit "American")
      (lit "Deep, authoritative voice for professional content");
    mkVoice (lit "elli") (lit "Elli") female (lit "American")
      (lit "Young, energetic voice with natural flow");
    mkVoice (lit "josh") (lit "Josh") male (lit "American")
      (lit "Friendly, conversational voice for casual content");
    mkVoice (lit "arnold") (lit "Arnold") male (lit "American")
      (lit "Mature, distinguished voice for formal presentations");
    mkVoice (lit "adam") (lit "Adam") male (lit "American")
      (lit "Clear, reliable voice for educational content");
    mkVoice (lit "sam") (lit "Sam") male (lit "American")
      (lit "Versatile voice suitable for various content types") ].

(** [voices.find(voice => voice.id === value)] *)
Definition selectedVoice (value : jsstring) : option Voice :=
  find (fun voice => jsstring_eqb (v_id voice) value) voices.

(** [voices.slice(0, 4)] *)
Definition popularVoices : list Voice := firstn 4 voices.

(** The selector: its own state [previewingVoice], the browser it shares
    with the page, and of the audio elements it creates the object URLs of
    those that play ([playing]) and of those whose URL was passed to
    [URL.revokeObjectURL] ([revoked]). *)
Record Selector := mkSelector {
  previewingVoice : option jsstring;
  playing : list nat;
  revoked : list nat;
  browser : World
}.

Definition initialSelector : Selector := mkSelector None [] [] initialWorld.

(** What the outside contributes to one preview: the provider's answer,
    the network for an indirect audio URL, and how the promise of
    [audio.play()] settles ([Some true]: playback starts; [Some false]: it
    is rejected; [None]: it never settles). *)
Record PreviewEnv := mkPreviewEnv {
  pv_provider : FetchResult;
  pv_net : jsstring -> FetchResult;
  pv_play : option bool
}.

(** The request of lines 100-126: a fixed text, the voice or its default,
    fixed stability and similarity. *)
Definition previewRequest (voiceId : jsstring) : Fetch :=
  ProviderRequest (lit "Hello! This is a voice preview sample.")
    (or_string voiceId (lit "rachel")) (3 # 4) (3 # 4).

(** The synchronous part of [previewVoice], up to the [await]. *)
Definition previewVoice (voiceId : jsstring) (s : Selector) : Selector :=
  mkSelector (Some voiceId) (playing s) (revoked s)
    (issueFetch (previewRequest voiceId) (browser s)).

(** The ways the [try] block of [previewVoice] ends without an exception
    of the decoding: the response was not OK, the decoding returned early,
    playback of the object URL started, or [play()] was rejected (an
    exception that the [catch] block only logs). *)
Inductive PreviewEnd :=
| NotOk
| NoAudio
| Played (audioUrl : nat)
| PlayRejected (audioUrl : nat).

Definition await_play (p : option bool) (audioUrl : nat) : M PreviewEnd :=
  match p with
  | Some true => ret (Played audioUrl)
  | Some false => ret (PlayRejected audioUrl)
  | None => pending
  end.

(** Lines 128-167. *)
Definition previewVoice_try (env : PreviewEnv) : M PreviewEnd :=
  response <- await_fetch (pv_provider env) ;;
  if ok response then
    payload <- previewVoice_decode (pv_net env) response ;;
    match payload with
    | None => ret NoAudio
    | Some audioBlob =>
        audioUrl <- lift (createObjectURL audioBlob) ;;
        await_play (pv_play env) audioUrl
    end
  else ret NotOk.

(** The rest of [previewVoice]: [catch] logs, [finally] resets
    [previewingVoice]; an audio element whose playback started will fire
    [ended]. *)
Definition previewVoice_resume (env : PreviewEnv) (s : Selector) : Selector :=
  match previewVoice_try env (browser s) with
  | (Ret (Played u), w') => mkSelector None (playing s ++ [u]) (revoked s) w'
  | (Ret _, w') => mkSelector None (playing s) (revoked s) w'
  | (Throw _, w') => mkSelector None (playing s) (revoked s) w'
  | (Pending, w') => mkSelector (previewingVoice s) (playing s) (revoked s) w'
  end.

(** The [ended] listener of lines 162-164: [URL.revokeObjectURL(audioUrl)]. *)
Definition audioEnded (u : nat) (s : Selector) : Selector :=
  if existsb (Nat.eqb u) (playing s)
  then mkSelector (previewingVoice s)
         (filter (fun p => negb (Nat.eqb p u)) (playing s))
         (revoked s ++ [u]) (browser s)
  else s.

Definition option_jsstring_eqb (a : option jsstring) (b : jsstring) : bool :=
  match a with
  | Some a => jsstring_eqb a b
  | None => false
  end.

(** The Preview button of lines 235-243: it exists when the selected value
    is a voice of the catalog, and is disabled while
    [previewingVoice === selectedVoice.id]. *)
Definition previewButton (value : jsstring) (s : Selector) : Selector :=
  match selectedVoice value with
  | None => s
  | Some voice =>
      if option_jsstring_eqb (previewingVoice s) (v_id voice) then s
      else previewVoice (v_id voice) s
  end.

(** The page and the selector together.  A [PreviewSettles] may come in
    any state of the selector, so the runs of this machine include those in
    which every settling answers an earlier click on Preview. *)
Inductive AppEvent :=
| OnPage (e : Event)
| PreviewClicked (value : jsstring)
| PreviewSettles (env : PreviewEnv)
| AudioEnds (u : nat).

Definition onPage (e : Event) (s : Selector) : Selector :=
  mkSelector (previewingVoice s) (playing s) (revoked s) (step e (browser s)).

Definition appStep (e : AppEvent) (s : Selector) : Selector :=
  match e with
  | OnPage e => onPage e s
  | PreviewClicked value => previewButton value s
  | PreviewSettles env => previewVoice_resume env s
  | AudioEnds u => audioEnded u s
  end.

Fixpoint appRun (es : list AppEvent) (s : Selector) : Selector :=
  match es with
  | [] => s
  | e :: es' => appRun es' (appStep e s)
  end.

(** The object URLs the page holds on to: those of the entries of the
    history and of the current audio. *)
Definition heldURLs (w : World) : list nat :=
  List.map ga_audioUrl (audioHistory w)
  ++ match currentAudio w with
     | Some a => [ga_audioUrl a]
     | None => []
     end.

(** ** More scenarios *)

(** An answer without a [content-type] header. *)
Definition bareResponse : Response :=
  mkResponse 200 None None (mkBlob [1; 2; 3]%N []).

Definition netAudio : jsstring -> FetchResult :=
  fun _ => Resolved audioResponse.

(** Code whose outcome does not depend on the world it runs in. *)
Definition oblivious {A} (m : M A) : Prop :=
  forall w w', fst (m w) = fst (m w').

(** One successful generation with the provider answering [r]. *)
Definition env_answer (r : Response) : Env :=
  mkEnv (Resolved r) netAudio (Some (3 # 2)%Q) 1757789650147 1757789650147.

(** The entry that a generation on [typedWorld] commits when the clock
    reads 7. *)
Definition typedEntry : GeneratedAudio :=
  newAudioOf (mkClosure (lit "hello world") initialVoiceSettings 0)
    (env_ok 7) 0 (3 # 2).

(** Every active interval was handed out by [setInterval]: its id is below
    the one handed out next. *)
Definition timers_fresh (w : World) : Prop :=
  Forall (fun i => (i < nextInterval w)%N) (intervals w).

(** The metadata of the decoded audio never loads. *)
Definition env_never_loaded : Env :=
  mkEnv (Resolved audioResponse) noNetwork None 7 7.

(** Whatever the user and the timers may try afterwards. *)
Definition afterwards : list Event :=
  [ClickGenerate; IntervalFires 0 (1 # 2)%Q; TextEdited (lit "again");
   ClickGenerate; ProviderSettles 0 (env_ok 9); ClickGenerate].

(** Settings with no voice chosen and a stability of zero. *)
Definition blankSettings : VoiceSettings := mkVoiceSettings [] 1 1 0 (1 # 2).

Definition blankSettingsWorld : World :=
  setVoiceSettings blankSettings typedWorld.

(** Edits made while the generation is in flight. *)
Definition edits : list Event :=
  [SettingsEdited blankSettings; TextEdited (lit "other");
   IntervalFires 0 (1 # 2)%Q].

(** The state of [HomePage], without the browser. *)
Definition page_state (w : World) :=
  (text w, isGenerating w, generationProgress w, currentAudio w,
   audioHistory w, voiceSettings w, intervals w, alerts w, awaiting w).

(** The object URLs in use are registered; an object URL is played or
    revoked by the selector at most once; and none that the page holds is
    among them. *)
Definition urls_ok (s : Selector) : Prop :=
  Forall (fun u => u < List.length (objectURLs (browser s)))
    (heldURLs (browser s) ++ playing s ++ revoked s) /\
  NoDup (playing s ++ revoked s) /\
  (forall u, In u (heldURLs (browser s)) -> ~ In u (playing s ++ revoked s)).

(** A preview whose audio cannot be played. *)
Definition pv_env (r : FetchResult) (play : option bool) : PreviewEnv :=
  mkPreviewEnv r netAudio play.

(** A session of both components: a generation, a preview that plays and
    ends, a preview whose playback is rejected, another generation. *)
Definition mixed_session : list AppEvent :=
  [OnPage (TextEdited (lit "hello world"));
   OnPage ClickGenerate; PreviewClicked (lit "rachel");
   PreviewSettles (pv_env (Resolved audioResponse) (Some true));
   OnPage (ProviderSettles 0 (env_ok 7));
   AudioEnds 0;
   PreviewClicked (lit "rachel");
   PreviewSettles (pv_env (Resolved audioResponse) (Some false));
   OnPage ClickGenerate; OnPage (ProviderSettles 0 (env_ok 8))].

(** A selector on which the preview of [domi] is in flight while the page
    generates. *)
Definition busySelector : Selector :=
  previewVoice (lit "domi")
    (mkSelector None [] [] (generateVoice typedWorld)).

(** The fourth voice of the catalog. *)
Definition antoni : Voice :=
  mkVoice (lit "antoni") (lit "Antoni") male (lit "American")
    (lit "Deep, authoritative voice for professional content").

(** The invocation that [typedWorld] starts. *)
Definition typedClosure : Closure :=
  mkClosure (lit "hello world") initialVoiceSettings 0.

(** * Properties *)

Unset Implicit Arguments.

(** ** Word count and estimated duration *)

Lemma is_empty_snoc (piece : jsstring) (c : code_unit) :
  is_empty (piece ++ [c]) = false.
Proof. destruct piece; reflexivity. Qed.

(** The non-empty pieces of a split are the runs still to be started, and
    the piece being read if it has started.  Inside a separator the piece
    being read is empty. *)
Lemma split_ws_from_count (s : jsstring) :
  forall in_sep piece,
    (in_sep = true -> piece = []) ->
    List.length (filter nonempty (split_ws_from in_sep piece s)) =
    (if is_empty piece then 0 else 1) + count_tokens_from (is_empty piece) s.
Proof.
  induction s as [|c s IH]; intros in_sep piece Hsep; simpl.
  - destruct piece; reflexivity.
  - destruct (is_ws c).
    + destruct in_sep.
      * rewrite (Hsep eq_refl). exact (IH true [] (fun _ => eq_refl)).
      * simpl. specialize (IH true [] (fun _ => eq_refl)). simpl in IH.
        destruct piece; simpl; now rewrite IH.
    + specialize (IH false (piece ++ [c]) ltac:(discriminate)).
      rewrite is_empty_snoc in IH. rewrite IH.
      destruct piece; reflexivity.
Qed.

Lemma count_tokens_from_ws (t : jsstring) :
  forallb is_ws t = true -> forall b, count_tokens_from b t = 0.
Proof.
  induction t as [|c t IH]; simpl; intros H b; [reflexivity|].
  apply andb_prop in H as [Hc Ht]. rewrite Hc. now apply IH.
Qed.

Lemma count_tokens_from_app_ws (s t : jsstring) :
  forallb is_ws t = true ->
  forall b, count_tokens_from b (s ++ t) = count_tokens_from b s.
Proof.
  intros Ht. induction s as [|c s IH]; intros b; simpl.
  - now apply count_tokens_from_ws.
  - destruct (is_ws c); now rewrite IH.
Qed.

Lemma trimStart_split (s : jsstring) :
  exists t, s = t ++ trimStart s /\ forallb is_ws t = true.
Proof.
  induction s as [|c s [t [E Ht]]]; simpl.
  - exists []. split; reflexivity.
  - destruct (is_ws c) eqn:Hc.
    + exists (c :: t). simpl. rewrite Hc, Ht. split; [now f_equal|reflexivity].
    + exists []. split; reflexivity.
Qed.

Lemma trimEnd_split (s : jsstring) :
  exists t, s = trimEnd s ++ t /\ forallb is_ws t = true.
Proof.
  unfold trimEnd. destruct (trimStart_split (rev s)) as [t [E Ht]].
  exists (rev t). split.
  - rewrite <- rev_app_distr, <- E. symmetry. apply rev_involutive.
  - rewrite forallb_forall in *. intros x Hx. apply Ht. now apply in_rev.
Qed.

Lemma count_tokens_trimStart (s : jsstring) :
  count_tokens_from true (trimStart s) = count_tokens_from true s.
Proof.
  induction s as [|c s IH]; simpl; [reflexivity|].
  destruct (is_ws c) eqn:Hc; [exact IH|]. simpl. now rewrite Hc.
Qed.

Lemma count_tokens_trim (s : jsstring) :
  count_tokens (trim s) = count_tokens s.
Proof.
  unfold count_tokens, trim.
  destruct (trimEnd_split (trimStart s)) as [t [E Ht]].
  rewrite <- (count_tokens_trimStart s). rewrite E at 2.
  symmetry. now apply count_tokens_from_app_ws.
Qed.

Lemma wordCount_count_tokens (t : jsstring) : wordCount t = count_tokens t.
Proof.
  unfold wordCount, split_ws.
  rewrite split_ws_from_count by discriminate. simpl.
  apply count_tokens_trim.
Qed.

(** The ceiling of [n / 2.5], in integers. *)
Lemma Qceiling_div_5_2 (n : Z) :
  Qceiling (inject_Z n / (5 # 2))%Q = (- ((- (2 * n)) / 5))%Z.
Proof.
  unfold Qceiling, Qfloor, Qdiv, Qmult, Qinv, Qopp, inject_Z. simpl.
  rewrite Z.mul_comm. reflexivity.
Qed.

(** C10: for every text, [wordCount] is the number of white-space-separated
    non-empty tokens (the maximal runs of code units that are not white
    space), and [estimatedDuration] is the ceiling of [wordCount / 2.5]: the
    least integer [d] with [wordCount <= 2.5 * d]. *)
Theorem wordCount_estimatedDuration_spec (t : jsstring) :
  wordCount t = count_tokens t /\
  (2 * Z.of_nat (wordCount t) <= 5 * estimatedDuration t
   /\ 5 * (estimatedDuration t - 1) < 2 * Z.of_nat (wordCount t))%Z.
Proof.
  split; [apply wordCount_count_tokens|].
  unfold estimatedDuration. rewrite Qceiling_div_5_2.
  set (n := Z.of_nat (wordCount t)).
  pose proof (Z.div_mod (- (2 * n)) 5 ltac:(lia)) as D.
  pose proof (Z.mod_pos_bound (- (2 * n)) 5 ltac:(lia)) as B.
  lia.
Qed.

(** ** What the decoders and [generateVoice] do to the page *)

Lemma issueFetches_nil (w : World) : issueFetches [] w = w.
Proof. destruct w. unfold issueFetches. simpl. now rewrite app_nil_r. Qed.

Lemma pure_ret {A} (a : A) : pure (ret a).
Proof. intros w. reflexivity. Qed.

Lemma pure_throw {A} (e : Exn) : pure (@throw A e).
Proof. intros w. reflexivity. Qed.

Lemma pure_orTypeError {A} (o : option A) : pure (orTypeError o).
Proof. intros w. destruct o; reflexivity. Qed.

Lemma pure_bind {A B} (m : M A) (k : A -> M B) :
  pure m -> (forall a, pure (k a)) -> pure (bind m k).
Proof.
  intros Hm Hk w. unfold bind. specialize (Hm w).
  destruct (m w) as [[a| |] w1]; simpl in Hm; subst w1;
    [apply Hk|reflexivity|reflexivity].
Qed.

Lemma pure_if {A} (b : bool) (m1 m2 : M A) :
  pure m1 -> pure m2 -> pure (if b then m1 else m2).
Proof. now destruct b. Qed.

Create HintDb purity.
#[local] Hint Resolve pure_ret pure_throw pure_orTypeError pure_bind pure_if
  : purity.

Lemma has_message_pure (j : JSValue) : pure (has_message j).
Proof. unfold has_message. auto 10 with purity. Qed.

Lemma message_content_pure (j : JSValue) : pure (message_content j).
Proof. unfold message_content. auto 10 with purity. Qed.

Lemma decode_dataURI_pure (m : jsstring) : pure (decode_dataURI m).
Proof.
  unfold decode_dataURI. destruct (atob _); auto with purity.
Qed.

Lemma fetch_audio_world (nt : jsstring -> FetchResult) (m : jsstring)
  (w : World) :
  snd (fetch_audio nt m w) = issueFetch (AudioFetch m) w.
Proof.
  unfold fetch_audio, bind, modify, await_fetch.
  destruct (nt m); reflexivity.
Qed.

(** A decoding leaves the page as it is and at most adds calls. *)
Lemma generateVoice_decode_world (nt : jsstring -> FetchResult) (r : Response)
  (w : World) :
  exists fl, snd (generateVoice_decode nt r w) = issueFetches fl w.
Proof.
  unfold generateVoice_decode.
  destruct (contentType_includes (content_type r) (lit "application/json")).
  - unfold bind at 1, await_json. destruct (json_body r) as [j|];
      [|exists []; simpl; now rewrite issueFetches_nil].
    unfold ret at 1, bind at 1.
    pose proof (has_message_pure j w) as Hm.
    destruct (has_message j w) as [[[]| |] w1]; simpl in Hm; subst w1;
      try (exists []; simpl; now rewrite issueFetches_nil).
    unfold bind at 1.
    pose proof (message_content_pure j w) as Hc.
    destruct (message_content j w) as [[v| |] w1]; simpl in Hc; subst w1;
      try (exists []; simpl; now rewrite issueFetches_nil).
    destruct v as [| |b|q|s|elems|props];
      try (exists []; simpl; now rewrite issueFetches_nil).
    destruct (startsWith s (lit "data:audio")).
    + exists []. now rewrite decode_dataURI_pure, issueFetches_nil.
    + destruct (startsWith s (lit "http") || startsWith s (lit "https"));
        [|exists []; simpl; now rewrite issueFetches_nil].
      exists [AudioFetch s]. unfold bind.
      pose proof (fetch_audio_world nt s w) as Hf.
      destruct (fetch_audio nt s w) as [[a| |] w1]; simpl in Hf; subst w1;
        try reflexivity.
      destruct (ok a); reflexivity.
  - exists []. rewrite issueFetches_nil.
    destruct (contentType_includes _ _); [reflexivity|].
    destruct (Nat.eqb _ _); reflexivity.
Qed.

Lemma settled_ret {A} (a : A) : settled (ret a).
Proof. intros w. discriminate. Qed.

Lemma settled_throw {A} (e : Exn) : settled (@throw A e).
Proof. intros w. discriminate. Qed.

Lemma settled_orTypeError {A} (o : option A) : settled (orTypeError o).
Proof. intros w. destruct o; discriminate. Qed.

Lemma settled_await_fetch (r : FetchResult) : settled (await_fetch r).
Proof. intros w. destruct r; discriminate. Qed.

Lemma settled_await_json (r : Response) : settled (await_json r).
Proof. intros w. unfold await_json. destruct (json_body r); discriminate. Qed.

Lemma settled_modify (f : World -> World) : settled (modify f).
Proof. intros w. discriminate. Qed.

Lemma settled_bind {A B} (m : M A) (k : A -> M B) :
  settled m -> (forall a, settled (k a)) -> settled (bind m k).
Proof.
  intros Hm Hk w. unfold bind. specialize (Hm w).
  destruct (m w) as [[a| |] w1]; simpl in *;
    [apply Hk|discriminate|contradiction].
Qed.

Lemma settled_if {A} (b : bool) (m1 m2 : M A) :
  settled m1 -> settled m2 -> settled (if b then m1 else m2).
Proof. now destruct b. Qed.

Create HintDb settling.
#[local] Hint Resolve settled_ret settled_throw settled_orTypeError
  settled_await_fetch settled_await_json settled_modify settled_bind
  settled_if : settling.

Lemma has_message_settled (j : JSValue) : settled (has_message j).
Proof. unfold has_message. auto 10 with settling. Qed.

Lemma message_content_settled (j : JSValue) : settled (message_content j).
Proof. unfold message_content. auto 10 with settling. Qed.

Lemma decode_dataURI_settled (m : jsstring) : settled (decode_dataURI m).
Proof. unfold decode_dataURI. destruct (atob _); auto with settling. Qed.

Lemma fetch_audio_settled (nt : jsstring -> FetchResult) (m : jsstring) :
  settled (fetch_audio nt m).
Proof. unfold fetch_audio. auto with settling. Qed.

#[local] Hint Resolve has_message_settled message_content_settled
  decode_dataURI_settled fetch_audio_settled : settling.

(** Both decodings always end: nothing they await can fail to settle. *)
Lemma generateVoice_decode_settled (nt : jsstring -> FetchResult)
  (r : Response) : settled (generateVoice_decode nt r).
Proof.
  unfold generateVoice_decode.
  apply settled_if; [|auto with settling].
  apply settled_bind; [auto with settling|intros j].
  apply settled_bind; [auto with settling|intros present].
  apply settled_if; [|auto with settling].
  apply settled_bind; [auto with settling|intros message].
  destruct message; auto 10 with settling.
Qed.

Lemma previewVoice_decode_settled (nt : jsstring -> FetchResult)
  (r : Response) : settled (previewVoice_decode nt r).
Proof.
  unfold previewVoice_decode.
  apply settled_if; [|auto with settling].
  apply settled_bind; [auto with settling|intros j].
  apply settled_bind; [auto with settling|intros present].
  apply settled_if; [|auto with settling].
  apply settled_bind; [auto with settling|intros message].
  destruct message; auto 10 with settling.
Qed.

Lemma throws_ret {A} (P : Exn -> Prop) (a : A) : throws P (ret a).
Proof. intros w e. discriminate. Qed.

Lemma throws_orTypeError {A} (o : option A) :
  throws (eq TypeError) (orTypeError o).
Proof. intros w e. destruct o; simpl; congruence. Qed.

Lemma throws_bind {A B} (P : Exn -> Prop) (m : M A) (k : A -> M B) :
  throws P m -> (forall a, throws P (k a)) -> throws P (bind m k).
Proof.
  intros Hm Hk w e. unfold bind. specialize (Hm w).
  destruct (m w) as [[a|e'|] w1]; simpl in *.
  - apply Hk.
  - intros [= <-]. now apply Hm.
  - discriminate.
Qed.

Lemma throws_if {A} (P : Exn -> Prop) (b : bool) (m1 m2 : M A) :
  throws P m1 -> throws P m2 -> throws P (if b then m1 else m2).
Proof. now destruct b. Qed.

Create HintDb throwing.
#[local] Hint Resolve throws_ret throws_orTypeError throws_bind throws_if
  : throwing.

(** Reading the envelope can only fail with a [TypeError]. *)
Lemma has_message_throws (j : JSValue) :
  throws (eq TypeError) (has_message j).
Proof. unfold has_message. auto 10 with throwing. Qed.

Lemma message_content_throws (j : JSValue) :
  throws (eq TypeError) (message_content j).
Proof. unfold message_content. auto 10 with throwing. Qed.

Lemma generateVoice_try_rejected (c : Closure) (env : Env) (w : World) :
  provider env = Rejected ->
  generateVoice_try c env w = (Throw FetchRejected, w).
Proof.
  intros H. unfold generateVoice_try, bind, await_fetch. now rewrite H.
Qed.

(** Once the provider has answered, the [try] block clears its interval,
    sets the progress to 100, and then either throws, or registers an object
    URL and waits for the metadata, or commits the new entry. *)
Lemma generateVoice_try_resolved (c : Closure) (env : Env) (w : World)
  (r : Response) :
  provider env = Resolved r ->
  exists fl,
    let w1 := issueFetches fl (arrived c w) in
    match generateVoice_try c env w with
    | (Throw e, w') => w' = w1
    | (Pending, w') =>
        loadedmetadata env = None /\
        exists blob, w' = snd (createObjectURL blob w1)
    | (Ret a, w') =>
        exists blob d,
          loadedmetadata env = Some d /\
          a = newAudioOf c env (List.length (objectURLs w)) d /\
          w' = commit a (snd (createObjectURL blob w1))
    end.
Proof.
  intros H. unfold generateVoice_try, await_fetch. rewrite H.
  unfold bind at 1, ret at 1. unfold bind at 1, modify at 1.
  unfold bind at 1, modify at 1. fold (arrived c w).
  unfold bind at 1. destruct (ok r); simpl.
  2:{ exists []. now rewrite issueFetches_nil. }
  unfold bind at 1.
  destruct (generateVoice_decode_world (net env) r (arrived c w)) as [fl Hw].
  exists fl.
  pose proof (generateVoice_decode_settled (net env) r (arrived c w)) as Hs.
  destruct (generateVoice_decode (net env) r (arrived c w)) as [[blob| |] w1];
    simpl in Hw, Hs; subst w1; [|reflexivity|contradiction].
  unfold bind at 1, lift at 1. simpl.
  unfold bind at 1, await_loadedmetadata.
  destruct (loadedmetadata env) as [d|]; simpl.
  - exists blob, d. repeat split; reflexivity.
  - split; [reflexivity|]. now exists blob.
Qed.

(** How a resumed invocation leaves the page, by the way it ends. *)
Lemma generateVoice_resume_rejected (c : Closure) (env : Env) (w : World) :
  provider env = Rejected ->
  generateVoice_resume c env w = (Throw FetchRejected, finally (alert w)).
Proof.
  intros H. unfold generateVoice_resume.
  now rewrite generateVoice_try_rejected.
Qed.

Lemma generateVoice_resume_resolved (c : Closure) (env : Env) (w : World)
  (r : Response) :
  provider env = Resolved r ->
  exists fl,
    let w1 := issueFetches fl (arrived c w) in
    match generateVoice_resume c env w with
    | (Throw e, w') => w' = finally (alert w1)
    | (Pending, w') =>
        loadedmetadata env = None /\
        exists blob, w' = snd (createObjectURL blob w1)
    | (Ret a, w') =>
        exists blob d,
          loadedmetadata env = Some d /\
          a = newAudioOf c env (List.length (objectURLs w)) d /\
          w' = finally (commit a (snd (createObjectURL blob w1)))
    end.
Proof.
  intros H. destruct (generateVoice_try_resolved c env w r H) as [fl Hfl].
  exists fl. unfold generateVoice_resume. cbv zeta in Hfl.
  destruct (generateVoice_try c env w) as [[a| |] w'].
  - destruct Hfl as (blob & d & Hd & Ha & Hw). exists blob, d.
    now rewrite Hw.
  - now rewrite Hfl.
  - exact Hfl.
Qed.

(** The facts about one resumed invocation that the properties below use. *)
Lemma generateVoice_resume_facts (c : Closure) (env : Env) (w : World) :
  let o := fst (generateVoice_resume c env w) in
  let w' := snd (generateVoice_resume c env w) in
  (List.length (objectURLs w) <= List.length (objectURLs w')) /\
  awaiting w' = awaiting w /\
  match o with
  | Ret a =>
      audioHistory w' = a :: firstn 9 (audioHistory w) /\
      currentAudio w' = Some a /\
      ga_audioUrl a = List.length (objectURLs w) /\
      List.length (objectURLs w') = S (List.length (objectURLs w)) /\
      ga_text a = storedText (c_text c) /\
      ga_id a = Number_toString (Date_now env) /\
      isGenerating w' = false /\ generationProgress w' = 0%Q
  | Throw _ =>
      audioHistory w' = audioHistory w /\
      currentAudio w' = currentAudio w /\
      isGenerating w' = false /\ generationProgress w' = 0%Q
  | Pending =>
      audioHistory w' = audioHistory w /\
      currentAudio w' = currentAudio w
  end.
Proof.
  destruct (provider env) as [|r] eqn:Hp.
  - rewrite (generateVoice_resume_rejected c env w Hp). simpl.
    repeat split; auto.
  - destruct (generateVoice_resume_resolved c env w r Hp) as [fl Hfl].
    cbv zeta in Hfl.
    destruct (generateVoice_resume c env w) as [[a| |] w']; simpl.
    + destruct Hfl as (blob & d & Hd & Ha & Hw). subst a w'. simpl.
      rewrite length_app. simpl. repeat split; auto; lia.
    + subst w'. simpl. repeat split; auto.
    + destruct Hfl as (Hd & blob & Hw). subst w'. simpl.
      rewrite length_app. simpl. repeat split; auto; lia.
Qed.

(** ** One event at a time *)

Lemma generateVoice_guarded (w : World) : guard w = true -> generateVoice w = w.
Proof. intros H. unfold generateVoice. now rewrite H. Qed.

(** The click that passes the guard. *)
Lemma generateVoice_started (w : World) :
  guard w = false ->
  generateVoice w =
  mkWorld (text w) true 0%Q (currentAudio w) (audioHistory w)
    (voiceSettings w) (intervals w ++ [nextInterval w])
    (N.succ (nextInterval w))
    (fetches w ++ [providerRequest (text w) (voiceSettings w)])
    (objectURLs w) (alerts w)
    (awaiting w ++ [mkClosure (text w) (voiceSettings w) (nextInterval w)]).
Proof. intros H. unfold generateVoice. now rewrite H. Qed.

Lemma generateVoice_keeps (w : World) :
  audioHistory (generateVoice w) = audioHistory w /\
  currentAudio (generateVoice w) = currentAudio w /\
  objectURLs (generateVoice w) = objectURLs w.
Proof.
  destruct (guard w) eqn:G.
  - now rewrite generateVoice_guarded.
  - now rewrite generateVoice_started.
Qed.

Lemma intervalFires_keeps (id : N) (r : Q) (w : World) :
  audioHistory (intervalFires id r w) = audioHistory w /\
  currentAudio (intervalFires id r w) = currentAudio w /\
  objectURLs (intervalFires id r w) = objectURLs w /\
  isGenerating (intervalFires id r w) = isGenerating w /\
  awaiting (intervalFires id r w) = awaiting w /\
  fetches (intervalFires id r w) = fetches w /\
  intervals (intervalFires id r w) = intervals w.
Proof.
  unfold intervalFires. destruct (existsb _ _); repeat split; reflexivity.
Qed.

Lemma historySelected_keeps (i : nat) (w : World) :
  audioHistory (historySelected i w) = audioHistory w /\
  objectURLs (historySelected i w) = objectURLs w /\
  isGenerating (historySelected i w) = isGenerating w /\
  awaiting (historySelected i w) = awaiting w /\
  fetches (historySelected i w) = fetches w /\
  intervals (historySelected i w) = intervals w.
Proof.
  unfold historySelected. destruct (nth_error _ _); repeat split; reflexivity.
Qed.

(** What a settling event does to the history and to the registry of
    object URLs. *)
Lemma providerSettles_facts (i : nat) (env : Env) (w : World) :
  let w' := snd (providerSettles i env w) in
  List.length (objectURLs w) <= List.length (objectURLs w') /\
  match fst (providerSettles i env w) with
  | Some (Ret a) =>
      audioHistory w' = a :: firstn 9 (audioHistory w) /\
      currentAudio w' = Some a /\
      ga_audioUrl a = List.length (objectURLs w) /\
      List.length (objectURLs w') = S (List.length (objectURLs w)) /\
      (exists c, nth_error (awaiting w) i = Some c /\
                 ga_text a = storedText (c_text c)) /\
      ga_id a = Number_toString (Date_now env) /\
      isGenerating w' = false /\ generationProgress w' = 0%Q
  | Some (Throw _) =>
      audioHistory w' = audioHistory w /\
      currentAudio w' = currentAudio w /\
      isGenerating w' = false /\ generationProgress w' = 0%Q
  | _ =>
      audioHistory w' = audioHistory w /\
      currentAudio w' = currentAudio w
  end.
Proof.
  unfold providerSettles.
  destruct (nth_error (awaiting w) i) as [c|] eqn:Hc; simpl; [|auto].
  set (w0 := setAwaiting (remove_nth i (awaiting w)) w).
  pose proof (generateVoice_resume_facts c env w0) as F. cbv zeta in F.
  destruct (generateVoice_resume c env w0) as [o w']. simpl in *.
  destruct F as (Hu & _ & F). split; [exact Hu|].
  destruct o as [a| |].
  - destruct F as (H1 & H2 & H3 & H4 & H5 & H6 & H7 & H8).
    repeat split; auto. now exists c.
  - exact F.
  - exact F.
Qed.

Lemma step_objectURLs (e : Event) (w : World) :
  List.length (objectURLs w) <= List.length (objectURLs (step e w)).
Proof.
  destruct e; simpl.
  - destruct (generateVoice_keeps w) as (_ & _ & ->). lia.
  - destruct (intervalFires_keeps id random w) as (_ & _ & -> & _). lia.
  - apply providerSettles_facts.
  - lia.
  - lia.
  - destruct (historySelected_keeps i w) as (_ & -> & _). lia.
Qed.

(** An event that commits an entry puts it in front of the nine newest
    entries; any other event leaves the history alone. *)
Lemma step_audioHistory (e : Event) (w : World) :
  match committed e w with
  | Some a =>
      audioHistory (step e w) = a :: firstn 9 (audioHistory w) /\
      currentAudio (step e w) = Some a /\
      ga_audioUrl a = List.length (objectURLs w) /\
      List.length (objectURLs (step e w)) = S (List.length (objectURLs w))
  | None => audioHistory (step e w) = audioHistory w
  end.
Proof.
  destruct e; simpl; try reflexivity.
  - apply generateVoice_keeps.
  - apply intervalFires_keeps.
  - pose proof (providerSettles_facts i env w) as F. cbv zeta in F.
    destruct F as [_ F].
    destruct (fst (providerSettles i env w)) as [[a| |]|];
      first [ now destruct F as (H1 & H2 & H3 & H4 & _) | apply F ].
  - apply historySelected_keeps.
Qed.

Lemma run_app (es1 es2 : list Event) (w : World) :
  run (es1 ++ es2) w = run es2 (run es1 w).
Proof. revert w. induction es1; simpl; auto. Qed.

(** ** The history along a run *)

Lemma step_history_length (e : Event) (w : World) :
  List.length (audioHistory w) <= 10 ->
  List.length (audioHistory (step e w)) <= 10.
Proof.
  intros H. pose proof (step_audioHistory e w) as F.
  destruct (committed e w) as [a|].
  - destruct F as (-> & _). cbn [List.length]. rewrite length_firstn. lia.
  - now rewrite F.
Qed.

Lemma run_history_length (es : list Event) (w : World) :
  List.length (audioHistory w) <= 10 ->
  List.length (audioHistory (run es w)) <= 10.
Proof.
  revert w. induction es as [|e es IH]; simpl; intros w H; [exact H|].
  apply IH. now apply step_history_length.
Qed.

Lemma firstn_10_front (l h : list GeneratedAudio) (a : GeneratedAudio) :
  firstn 10 (l ++ a :: firstn 9 h) = firstn 10 (l ++ a :: h).
Proof.
  rewrite !firstn_app. f_equal.
  change (a :: firstn 9 h) with (firstn 10 (a :: h)).
  rewrite firstn_firstn. f_equal. lia.
Qed.

(** The history is the ten newest of the entries committed so far, newest
    first. *)
Lemma run_history (es : list Event) (w : World) :
  List.length (audioHistory w) <= 10 ->
  audioHistory (run es w) =
  firstn 10 (rev (generated es w) ++ audioHistory w).
Proof.
  revert w. induction es as [|e es IH]; intros w H; cbn [run generated].
  - cbn [rev app]. symmetry. now apply firstn_all2.
  - rewrite IH by now apply step_history_length.
    pose proof (step_audioHistory e w) as F.
    destruct (committed e w) as [a|].
    + destruct F as (-> & _). cbn [rev]. rewrite <- app_assoc. cbn [app].
      apply firstn_10_front.
    + now rewrite F.
Qed.

(** Object URLs are handed out in increasing order, so the entries
    committed along a run carry increasing URLs. *)
Lemma generated_urls (es : list Event) (w : World) :
  forall a, In a (generated es w) ->
            List.length (objectURLs w) <= ga_audioUrl a.
Proof.
  revert w. induction es as [|e es IH]; simpl; intros w a Ha; [contradiction|].
  pose proof (step_objectURLs e w) as Hm.
  pose proof (step_audioHistory e w) as F.
  destruct (committed e w) as [a0|].
  - destruct Ha as [<-|Ha].
    + destruct F as (_ & _ & -> & _). lia.
    + specialize (IH _ _ Ha). lia.
  - specialize (IH _ _ Ha). lia.
Qed.

Lemma generated_first_fresh (es : list Event) (w : World)
  (a1 : GeneratedAudio) (rest : list GeneratedAudio) :
  generated es w = a1 :: rest -> ~ In a1 rest.
Proof.
  revert w. induction es as [|e es IH]; simpl; intros w; [discriminate|].
  pose proof (step_audioHistory e w) as F.
  destruct (committed e w) as [a0|]; [|apply IH].
  intros E. injection E as <- <-. intros Hin.
  apply generated_urls in Hin. destruct F as (_ & _ & F1 & F2). lia.
Qed.

Lemma hd_error_rev_last {A} (l : list A) (d : A) :
  l <> [] -> hd_error (rev l) = Some (last l d).
Proof.
  intros H. destruct (exists_last H) as (l' & x & ->).
  now rewrite rev_app_distr, last_last.
Qed.

Lemma firstn_exact {A} (n : nat) (l t : list A) :
  List.length l = n -> firstn n (l ++ t) = l.
Proof.
  intros <-. rewrite firstn_app, Nat.sub_diag, firstn_O, app_nil_r.
  apply firstn_all.
Qed.

(** C1: in every state the page can reach the history has at most ten
    entries; an event that ends a generation successfully puts the new
    entry in front (of the nine newest before it); and when eleven
    generations have succeeded the history is the last ten of them, newest
    first: the first one is gone and the eleventh is in front. *)
Theorem history_bounded_newest_first :
  (forall es, List.length (audioHistory (run es initialWorld)) <= 10) /\
  (forall e w a,
      committed e w = Some a ->
      audioHistory (step e w) = a :: firstn 9 (audioHistory w) /\
      currentAudio (step e w) = Some a) /\
  (forall es a1 rest,
      generated es initialWorld = a1 :: rest ->
      List.length rest = 10 ->
      let history := audioHistory (run es initialWorld) in
      history = rev rest /\
      ~ In a1 history /\
      hd_error history = Some (last rest a1)).
Proof.
  split; [|split].
  - intros es. apply run_history_length. simpl. lia.
  - intros e w a H. pose proof (step_audioHistory e w) as F.
    rewrite H in F. now destruct F as (F1 & F2 & _).
  - intros es a1 rest Hg Hl history.
    assert (Hh : history = rev rest).
    { unfold history. rewrite run_history by (simpl; lia). rewrite Hg.
      cbn [rev audioHistory initialWorld]. rewrite app_nil_r.
      apply firstn_exact. rewrite length_rev. exact Hl. }
    rewrite Hh. split; [reflexivity|split].
    + intros Hin. apply in_rev in Hin.
      now apply (generated_first_fresh es initialWorld a1 rest Hg).
    + apply hd_error_rev_last. intros ->. discriminate.
Qed.

Lemma history_bounded_newest_first_witness :
  generated eleven_generations initialWorld
  = hd (newAudioOf (mkClosure [] initialVoiceSettings 0) (env_ok 0) 0 0)
      eleven_entries :: tl eleven_entries /\
  List.length (tl eleven_entries) = 10 /\
  ~ In (hd (newAudioOf (mkClosure [] initialVoiceSettings 0) (env_ok 0) 0 0)
          eleven_entries)
       (audioHistory (run eleven_generations initialWorld)).
Proof.
  split; [vm_compute; reflexivity|].
  split; [vm_compute; reflexivity|].
  apply (proj2 (proj2 history_bounded_newest_first) eleven_generations
           (hd (newAudioOf (mkClosure [] initialVoiceSettings 0) (env_ok 0)
                  0 0) eleven_entries)
           (tl eleven_entries));
    vm_compute; reflexivity.
Defined.

(** ** The guard *)

Lemma is_empty_trimStart (s : jsstring) :
  is_empty (trimStart s) = forallb is_ws s.
Proof.
  induction s as [|c s IH]; simpl; [reflexivity|].
  destruct (is_ws c); [exact IH|reflexivity].
Qed.

Lemma forallb_trimStart (s : jsstring) :
  forallb is_ws (trimStart s) = forallb is_ws s.
Proof.
  induction s as [|c s IH]; simpl; [reflexivity|].
  destruct (is_ws c) eqn:Hc; [exact IH|]. simpl. now rewrite Hc.
Qed.

Lemma is_empty_rev (s : jsstring) : is_empty (rev s) = is_empty s.
Proof.
  destruct s as [|c s]; [reflexivity|]. simpl.
  destruct (rev s); reflexivity.
Qed.

Lemma forallb_rev (f : code_unit -> bool) (s : jsstring) :
  forallb f (rev s) = forallb f s.
Proof.
  induction s as [|c s IH]; simpl; [reflexivity|].
  rewrite forallb_app, IH. simpl. rewrite andb_true_r. apply andb_comm.
Qed.

(** The trimmed text is empty exactly when the text is empty or all white
    space. *)
Lemma is_empty_trim (s : jsstring) : is_empty (trim s) = forallb is_ws s.
Proof.
  unfold trim, trimEnd.
  now rewrite is_empty_rev, is_empty_trimStart, forallb_rev, forallb_trimStart.
Qed.

Lemma guard_spec (w : World) :
  guard w = forallb is_ws (text w) || isGenerating w.
Proof. unfold guard. now rewrite is_empty_trim. Qed.

Lemma provider_calls_started (w : World) :
  guard w = false -> provider_calls (generateVoice w) = S (provider_calls w).
Proof.
  intros G. rewrite (generateVoice_started w G). unfold provider_calls. simpl.
  rewrite filter_app, length_app. simpl. lia.
Qed.

(** While a generation is in flight, an event that does not resume it
    leaves the flag, the awaiting invocations, the calls made, the timers
    and the history as they are. *)
Lemma quiet_step (e : Event) (w : World) :
  settles e = false -> isGenerating w = true ->
  isGenerating (step e w) = true /\
  awaiting (step e w) = awaiting w /\
  fetches (step e w) = fetches w /\
  intervals (step e w) = intervals w /\
  audioHistory (step e w) = audioHistory w.
Proof.
  intros Hq Hg. destruct e; try discriminate; simpl.
  - rewrite generateVoice_guarded; [auto|].
    rewrite guard_spec, Hg. apply orb_true_r.
  - destruct (intervalFires_keeps id random w)
      as (H1 & _ & _ & H2 & H3 & H4 & H5).
    rewrite H1, H2, H3, H4, H5. auto.
  - auto.
  - auto.
  - destruct (historySelected_keeps i w) as (H1 & _ & H2 & H3 & H4 & H5).
    rewrite H1, H2, H3, H4, H5. auto.
Qed.

Lemma quiet_run (es : list Event) (w : World) :
  forallb (fun e => negb (settles e)) es = true -> isGenerating w = true ->
  isGenerating (run es w) = true /\
  awaiting (run es w) = awaiting w /\
  fetches (run es w) = fetches w /\
  intervals (run es w) = intervals w /\
  audioHistory (run es w) = audioHistory w.
Proof.
  revert w. induction es as [|e es IH]; simpl; intros w Hq Hg; [auto|].
  apply andb_prop in Hq as [He Hq]. apply negb_true_iff in He.
  destruct (quiet_step e w He Hg) as (H1 & H2 & H3 & H4 & H5).
  destruct (IH (step e w) Hq H1) as (K1 & K2 & K3 & K4 & K5).
  rewrite K2, K3, K4, K5. auto.
Qed.

(** C3: a click while the text is empty or all white space, or while a
    generation is in flight, changes nothing and issues no request.  A click
    that passes the guard issues one provider request, and as long as that
    generation has not been resumed every further click, whatever else
    happens in between, changes nothing: exactly one provider request has
    been made. *)
Theorem generate_guard_single_flight (w : World) :
  (forallb is_ws (text w) = true \/ isGenerating w = true ->
   generateVoice w = w) /\
  (forallb is_ws (text w) = false -> isGenerating w = false ->
   provider_calls (generateVoice w) = S (provider_calls w) /\
   forall es,
     forallb (fun e => negb (settles e)) es = true ->
     let w' := run es (generateVoice w) in
     generateVoice w' = w' /\
     fetches w' = fetches (generateVoice w) /\
     provider_calls w' = S (provider_calls w)).
Proof.
  split.
  - intros H. apply generateVoice_guarded. rewrite guard_spec.
    destruct H as [-> | ->]; [reflexivity|apply orb_true_r].
  - intros Ht Hg.
    assert (G : guard w = false) by (rewrite guard_spec, Ht, Hg; reflexivity).
    split; [now apply provider_calls_started|].
    intros es Hq w'.
    assert (Hs : isGenerating (generateVoice w) = true)
      by now rewrite (generateVoice_started w G).
    destruct (quiet_run es (generateVoice w) Hq Hs) as (K1 & _ & K3 & _).
    fold w' in K1, K3. split; [|split].
    + apply generateVoice_guarded. rewrite guard_spec, K1. apply orb_true_r.
    + exact K3.
    + unfold provider_calls. rewrite K3. now apply provider_calls_started.
Qed.

Lemma generate_guard_single_flight_witness :
  generateVoice initialWorld = initialWorld /\
  provider_calls (run impatient_session typedWorld) = 1.
Proof.
  split.
  - apply (proj1 (generate_guard_single_flight initialWorld)).
    left. reflexivity.
  - exact (proj2 (proj2 (proj2 (proj2 (generate_guard_single_flight typedWorld)
             eq_refl eq_refl) (impatient ++ [ClickGenerate]) eq_refl))).
Defined.

(** ** Failure, and the stored text *)

Lemma ticks_keep (ticks : list Event) (w : World) :
  forallb is_tick ticks = true ->
  audioHistory (run ticks w) = audioHistory w /\
  currentAudio (run ticks w) = currentAudio w.
Proof.
  revert w. induction ticks as [|e es IH]; simpl; intros w H; [auto|].
  apply andb_prop in H as [He H]. destruct e; try discriminate. simpl.
  destruct (IH (intervalFires id random w) H) as [-> ->].
  destruct (intervalFires_keeps id random w) as (-> & -> & _). auto.
Qed.

(** C5: when the attempt started by a click ends with an exception, be it
    a rejected request, an error status or a failure to decode, no entry is
    committed and the history and the current audio are what they were
    before the click. *)
Theorem failed_generation_leaves_no_trace (w : World) (ticks : list Event)
  (i : nat) (env : Env) :
  forallb is_tick ticks = true ->
  failed (ProviderSettles i env) (run ticks (generateVoice w)) = true ->
  let w' := run (ClickGenerate :: ticks ++ [ProviderSettles i env]) w in
  committed (ProviderSettles i env) (run ticks (generateVoice w)) = None /\
  audioHistory w' = audioHistory w /\
  currentAudio w' = currentAudio w.
Proof.
  intros Ht Hf w'. unfold w'. cbn [run step]. rewrite run_app. cbn [run step].
  set (w1 := run ticks (generateVoice w)) in *.
  pose proof (providerSettles_facts i env w1) as F. cbv zeta in F.
  destruct F as [_ F]. unfold failed in Hf. unfold committed.
  destruct (fst (providerSettles i env w1)) as [[a|e|]|]; try discriminate.
  destruct F as (F1 & F2 & _). rewrite F1, F2. unfold w1.
  destruct (ticks_keep ticks (generateVoice w) Ht) as [-> ->].
  destruct (generateVoice_keeps w) as (-> & -> & _). auto.
Qed.

Lemma failed_generation_leaves_no_trace_witness :
  audioHistory (run (ClickGenerate :: two_ticks
                       ++ [ProviderSettles 0 env_http_error]) usedWorld)
  = audioHistory usedWorld /\
  currentAudio (run (ClickGenerate :: two_ticks
                       ++ [ProviderSettles 0 env_rejected]) usedWorld)
  = currentAudio usedWorld.
Proof.
  split.
  - apply (failed_generation_leaves_no_trace usedWorld two_ticks 0
             env_http_error); reflexivity.
  - apply (failed_generation_leaves_no_trace usedWorld two_ticks 0
             env_rejected); reflexivity.
Defined.

Lemma storedText_short (t : jsstring) :
  List.length t <= 100 -> storedText t = t.
Proof.
  intros H. unfold storedText, substring0.
  rewrite firstn_all2 by exact H.
  replace (Nat.ltb 100 (List.length t)) with false
    by (symmetry; apply Nat.ltb_ge; exact H).
  apply app_nil_r.
Qed.

Lemma storedText_long (t : jsstring) :
  100 < List.length t -> storedText t = firstn 100 t ++ lit "...".
Proof.
  intros H. unfold storedText, substring0.
  now replace (Nat.ltb 100 (List.length t)) with true
    by (symmetry; apply Nat.ltb_lt; exact H).
Qed.

(** C8: the entry committed for a click made on text [t] stores [t] itself
    when [t] has at most 100 code units, and its first 100 code units
    followed by three dots when it has more; whatever happens to the page
    while the generation is in flight.  A text of 150 code units is thus
    stored as 103 code units, the first hundred and the dots. *)
Theorem stored_text_truncated_to_100 (w : World) (es : list Event) (env : Env)
  (a : GeneratedAudio) :
  guard w = false ->
  forallb (fun e => negb (settles e)) es = true ->
  committed (ProviderSettles (List.length (awaiting w)) env)
    (run es (generateVoice w)) = Some a ->
  (List.length (text w) <= 100 -> ga_text a = text w) /\
  (100 < List.length (text w) ->
   ga_text a = firstn 100 (text w) ++ lit "...") /\
  (List.length (text w) = 150 ->
   ga_text a = firstn 100 (text w) ++ lit "..." /\
   List.length (ga_text a) = 103).
Proof.
  intros G Hq Hc.
  assert (Hs : isGenerating (generateVoice w) = true)
    by now rewrite (generateVoice_started w G).
  destruct (quiet_run es (generateVoice w) Hq Hs) as (_ & K2 & _).
  set (w1 := run es (generateVoice w)) in *.
  pose proof (providerSettles_facts (List.length (awaiting w)) env w1) as F.
  cbv zeta in F. destruct F as [_ F]. unfold committed in Hc.
  destruct (fst (providerSettles (List.length (awaiting w)) env w1))
    as [[a0|e|]|]; try discriminate.
  injection Hc as ->.
  destruct F as (_ & _ & _ & _ & (c & Hn & Htxt) & _).
  rewrite K2, (generateVoice_started w G) in Hn. cbn [awaiting] in Hn.
  rewrite nth_error_app2, Nat.sub_diag in Hn by lia.
  injection Hn as <-. cbn [c_text] in Htxt. rewrite Htxt.
  split; [apply storedText_short|split; [apply storedText_long|]].
  intros H150. rewrite storedText_long by lia. split; [reflexivity|].
  rewrite length_app, length_firstn, H150. reflexivity.
Qed.

Lemma stored_text_truncated_to_100_witness :
  List.length (text longTextWorld) = 150 /\
  exists a,
    hd_error (audioHistory
                (run (ClickGenerate :: impatient
                        ++ [ProviderSettles 0 (env_ok 7)]) longTextWorld))
    = Some a /\
    ga_text a = firstn 100 longText ++ lit "...".
Proof.
  split; [reflexivity|].
  eexists. split; [vm_compute; reflexivity|].
  refine (proj1 (proj2 (proj2 (stored_text_truncated_to_100 longTextWorld
            impatient (env_ok 7) _ eq_refl eq_refl _)) eq_refl)).
  vm_compute. reflexivity.
Defined.

(** ** The simulated progress and its timer *)


(** When the provider has answered, the [try] block has set the progress
    to 100 and cleared its own interval, however it goes on. *)
Lemma answer_sets_100 (c : Closure) (env : Env) (w : World) (r : Response) :
  provider env = Resolved r ->
  let w' := snd (generateVoice_try c env w) in
  generationProgress w' = 100%Q /\
  ~ In (c_progressInterval c) (intervals w').
Proof.
  intros H. destruct (generateVoice_try_resolved c env w r H) as [fl F].
  cbv zeta in F |- *.
  assert (K : ~ In (c_progressInterval c)
                (filter (fun i => negb (N.eqb i (c_progressInterval c)))
                   (intervals w))).
  { intros Hin. apply filter_In in Hin as [_ Hin].
    now rewrite N.eqb_refl in Hin. }
  destruct (generateVoice_try c env w) as [[a| |] w']; simpl.
  - destruct F as (blob & d & _ & _ & ->). now split.
  - subst w'. now split.
  - destruct F as (_ & blob & ->). now split.
Qed.

(** X20: every way out of [generateVoice], with a value or an exception, ends
    with the flag off and the progress at zero; and when the provider had
    answered, the interval of the invocation is no longer active. *)
Lemma exit_resets (c : Closure) (env : Env) (w : World) :
  let w' := snd (generateVoice_resume c env w) in
  fst (generateVoice_resume c env w) <> Pending ->
  isGenerating w' = false /\ generationProgress w' = 0%Q /\
  (provider env <> Rejected -> ~ In (c_progressInterval c) (intervals w')).
Proof.
  intros w' Hp. subst w'. unfold generateVoice_resume in *.
  destruct (provider env) as [|r] eqn:E.
  - rewrite (generateVoice_try_rejected c env w E). simpl. now repeat split.
  - pose proof (answer_sets_100 c env w r E) as [_ K]. cbv zeta in K.
    destruct (generateVoice_try c env w) as [[a| |] w1]; simpl in *;
      [now repeat split|now repeat split|contradiction].
Qed.



(** C2, at the input where it fails: after a click, eleven ticks that draw
    0.5 bring the progress to 82.5, and one more tick that draws 0.75 brings
    it to 93.75, while the generation is still in flight and the provider
    has not answered. *)
Theorem progress_exceeds_90_before_response :
  let w := run overshoot typedWorld in
  isGenerating w = true /\
  List.length (awaiting w) = 1 /\
  (generationProgress w == 375 # 4)%Q /\
  (90 < generationProgress w)%Q.
Proof. vm_compute. repeat split; reflexivity. Qed.

(** C4, at the input where it fails: when the request is rejected, the
    [finally] block turns the flag off and sets the progress to zero, but
    the interval started by the click is still active, and its next tick
    moves the progress away from zero. *)
Theorem interval_survives_rejected_request :
  let w := run rejected_generation typedWorld in
  isGenerating w = false /\
  generationProgress w = 0%Q /\
  intervals w = [0%N] /\
  (generationProgress (step (IntervalFires 0 (1 # 2)%Q) w) == 15 # 2)%Q.
Proof. vm_compute. repeat split; reflexivity. Qed.

(** ** The two decodings *)

(** C6 as stated fails: with an unrecognised content type and an empty
    body the main decoding throws and the preview has a payload; and when
    the audio URL of the envelope answers 404 the main decoding throws and
    the preview takes the error page as its payload. *)
Lemma preview_decodes_what_main_rejects :
  main_payload (fst (generateVoice_decode noNetwork emptyResponse initialWorld))
  <> preview_payload
       (fst (previewVoice_decode noNetwork emptyResponse initialWorld)) /\
  fst (generateVoice_decode noNetwork emptyResponse initialWorld)
  = Throw EmptyResponse /\
  fst (previewVoice_decode noNetwork emptyResponse initialWorld)
  = Ret (Some (blob_body emptyResponse)) /\
  fst (generateVoice_decode net404 indirectResponse initialWorld)
  = Throw FailedToFetchAudio /\
  fst (previewVoice_decode net404 indirectResponse initialWorld)
  = Ret (Some (blob_body notFound)).
Proof. vm_compute. repeat split; try reflexivity. discriminate. Qed.

(** C6, amended: the preview decoding makes the same calls as the main
    one; where the main decoding yields a payload the preview yields the
    same; where the main decoding throws because the indirect audio answer
    is not OK, or because the body under an unrecognised content type is
    empty, the preview yields that body as its payload; where the main
    decoding throws for an unexpected message or a missing one the preview
    returns without a payload; and every other exception is thrown by
    both. *)
Theorem preview_decode_agrees_where_main_succeeds
  (nt : jsstring -> FetchResult) (r : Response) (w : World) :
  snd (previewVoice_decode nt r w) = snd (generateVoice_decode nt r w) /\
  match fst (generateVoice_decode nt r w) with
  | Ret b => fst (previewVoice_decode nt r w) = Ret (Some b)
  | Throw FailedToFetchAudio =>
      exists m a, nt m = Resolved a /\ ok a = false /\
                  fst (previewVoice_decode nt r w) = Ret (Some (blob_body a))
  | Throw EmptyResponse =>
      blob_size (blob_body r) = 0 /\
      fst (previewVoice_decode nt r w) = Ret (Some (blob_body r))
  | Throw UnexpectedResponseFormat | Throw NoAudioData =>
      fst (previewVoice_decode nt r w) = Ret None
  | Throw e => fst (previewVoice_decode nt r w) = Throw e
  | Pending => False
  end.
Proof.
  unfold previewVoice_decode, generateVoice_decode.
  destruct (contentType_includes (content_type r) (lit "application/json")).
  - unfold bind, await_json, ret, throw.
    destruct (json_body r) as [j|]; [|split; reflexivity].
    cbv beta iota.
    pose proof (has_message_pure j w) as Hm.
    pose proof (has_message_settled j w) as Sm.
    pose proof (has_message_throws j w) as Tm.
    destruct (has_message j w) as [[[]|e|] w1]; simpl in Hm, Sm, Tm; subst w1;
      cbv beta iota.
    + pose proof (message_content_pure j w) as Hc.
      pose proof (message_content_settled j w) as Sc.
      pose proof (message_content_throws j w) as Tc.
      destruct (message_content j w) as [[v|e|] w1]; simpl in Hc, Sc, Tc;
        subst w1; cbv beta iota.
      * destruct v as [| |b|q|s|elems|props]; try (split; reflexivity).
        destruct (startsWith s (lit "data:audio")).
        -- unfold decode_dataURI, ret, throw.
           destruct (atob _); split; reflexivity.
        -- destruct (startsWith s (lit "http") || startsWith s (lit "https"));
             [|split; reflexivity].
           unfold fetch_audio, bind, modify, await_fetch, ret, throw.
           destruct (nt s) as [|a] eqn:En; [split; reflexivity|].
           cbv beta iota.
           destruct (ok a) eqn:Eo; [split; reflexivity|].
           split; [reflexivity|]. cbn. now exists s, a.
      * rewrite <- (Tc e eq_refl). split; reflexivity.
      * contradiction.
    + split; reflexivity.
    + rewrite <- (Tm e eq_refl). split; reflexivity.
    + contradiction.
  - destruct (contentType_includes (content_type r) (lit "audio"));
      [split; reflexivity|].
    cbv zeta. destruct (Nat.eqb (blob_size (blob_body r)) 0) eqn:Es.
    + split; [reflexivity|]. cbn. split; [now apply Nat.eqb_eq|reflexivity].
    + split; reflexivity.
Qed.

(** ** The data URI branch *)

Lemma split_on_from_hd (sep : code_unit) (s : jsstring) :
  forall piece,
    hd_error (split_on_from sep piece s) = Some (piece ++ upto sep s).
Proof.
  induction s as [|c s IH]; intros piece; simpl.
  - now rewrite app_nil_r.
  - destruct (c =? sep)%N; simpl.
    + now rewrite app_nil_r.
    + rewrite IH, <- app_assoc. reflexivity.
Qed.

(** The second piece of [split] is what lies between the first separator
    and the next. *)
Lemma split_on_from_second (sep : code_unit) (s : jsstring) :
  forall piece,
    nth_error (split_on_from sep piece s) 1
    = option_map (upto sep) (after_first sep s).
Proof.
  induction s as [|c s IH]; intros piece; simpl; [reflexivity|].
  destruct (c =? sep)%N; simpl.
  - pose proof (split_on_from_hd sep s []) as H.
    destruct (split_on_from sep [] s); simpl in *; congruence.
  - apply IH.
Qed.

(** An envelope from which a content string can be read has a message. *)
Lemma message_content_has_message (j : JSValue) (w : World) (m : jsstring) :
  fst (message_content j w) = Ret (JString m) ->
  fst (has_message j w) = Ret true.
Proof.
  unfold message_content, has_message, bind, orTypeError, ret, throw.
  destruct (get_prop j (lit "choices")) as [choices|]; [|discriminate].
  cbv beta iota.
  destruct (get_index0 choices) as [first|] eqn:E0; [|discriminate].
  cbv beta iota.
  destruct (get_prop first (lit "message")) as [message|] eqn:E1;
    [|discriminate].
  cbv beta iota.
  destruct (get_prop message (lit "content")) as [content|] eqn:E2;
    [|discriminate].
  cbn [fst]. intros [= ->].
  assert (Tm : truthy message = true)
    by (destruct message; simpl in E2 |- *; congruence).
  assert (Tf : truthy first = true)
    by (destruct first; simpl in E1 |- *; try congruence;
        injection E1 as <-; discriminate).
  assert (Tc : truthy choices = true).
  { destruct choices as [| |b|q|s|elems|props]; simpl in E0;
      try discriminate; try reflexivity; injection E0 as <-;
      try discriminate.
    destruct s; [discriminate|reflexivity]. }
  now rewrite Tc, Tf, Tm.
Qed.

(** C7 as stated fails: for a data URI with a second comma the payload is
    the decoding of what lies between the two commas, three zero bytes
    here, while what follows the first comma is not base64 at all. *)
Lemma second_comma_cuts_the_payload :
  startsWith twoCommas (lit "data:audio") = true /\
  after_first 44%N twoCommas = Some (lit "AAAA,BBBB") /\
  atob (lit "AAAA,BBBB") = None /\
  fst (generateVoice_decode noNetwork (jsonResponse_of (JString twoCommas))
         initialWorld)
  = Ret (mkBlob [0; 0; 0]%N (lit "audio/mpeg")) /\
  option_map blob_bytes
    (main_payload
       (fst (generateVoice_decode noNetwork
               (jsonResponse_of (JString twoCommas)) initialWorld)))
  <> option_map Uint8Array_of (atob (lit "AAAA,BBBB")).
Proof. vm_compute. repeat split; try reflexivity. discriminate. Qed.

(** C7, amended: for a JSON response whose [choices[0].message.content] is
    a string beginning with [data:audio], the payload is the forgiving
    base64 decoding of what lies between the first comma and the next comma
    (or the end of the string), tagged [audio/mpeg]; decoding throws when
    that segment is not base64, and also when the string has no comma at
    all, the text decoded then being [undefined].  The content
    [data:audio/mpeg;base64,AAAA] yields the decoding of [AAAA]. *)
Theorem dataURI_payload_is_second_segment
  (nt : jsstring -> FetchResult) (r : Response) (j : JSValue) (m : jsstring)
  (w : World) :
  contentType_includes (content_type r) (lit "application/json") = true ->
  json_body r = Some j ->
  fst (message_content j w) = Ret (JString m) ->
  startsWith m (lit "data:audio") = true ->
  generateVoice_decode nt r w
  = (match atob (ToString_opt (between_commas m)) with
     | Some binaryString =>
         Ret (mkBlob (Uint8Array_of binaryString) (lit "audio/mpeg"))
     | None => Throw InvalidCharacterError
     end, w) /\
  (m = lit "data:audio/mpeg;base64,AAAA" ->
   option_map blob_bytes (main_payload (fst (generateVoice_decode nt r w)))
   = atob (lit "AAAA")).
Proof.
  intros Hct Hj Hc Hs.
  assert (E : generateVoice_decode nt r w
              = (match atob (ToString_opt (between_commas m)) with
                 | Some binaryString =>
                     Ret (mkBlob (Uint8Array_of binaryString)
                            (lit "audio/mpeg"))
                 | None => Throw InvalidCharacterError
                 end, w)).
  { unfold generateVoice_decode. rewrite Hct.
    unfold bind, await_json. rewrite Hj. unfold ret at 1. cbv beta iota.
    pose proof (message_content_has_message j w m Hc) as Hh.
    pose proof (has_message_pure j w) as Ph.
    destruct (has_message j w) as [oh wh]. simpl in Hh, Ph. subst oh wh.
    cbv beta iota.
    pose proof (message_content_pure j w) as Pc.
    destruct (message_content j w) as [oc wc]. simpl in Hc, Pc. subst oc wc.
    cbv beta iota. rewrite Hs.
    unfold decode_dataURI, split_on, between_commas.
    rewrite split_on_from_second.
    destruct (atob _); reflexivity. }
  split; [exact E|].
  intros ->. rewrite E. vm_compute. reflexivity.
Qed.

Lemma dataURI_payload_is_second_segment_witness :
  fst (generateVoice_decode noNetwork
         (jsonResponse_of (JString (lit "data:audio/mpeg;base64,AAAA")))
         initialWorld)
  = Ret (mkBlob [0; 0; 0]%N (lit "audio/mpeg")).
Proof.
  rewrite (proj1 (dataURI_payload_is_second_segment noNetwork
             (jsonResponse_of (JString (lit "data:audio/mpeg;base64,AAAA")))
             (envelope (JString (lit "data:audio/mpeg;base64,AAAA")))
             (lit "data:audio/mpeg;base64,AAAA") initialWorld
             eq_refl eq_refl eq_refl eq_refl)).
  reflexivity.
Defined.

(** ** Identifiers *)

Lemma lit_inj (s1 s2 : string) : lit s1 = lit s2 -> s1 = s2.
Proof.
  unfold lit. intros H.
  apply (f_equal (List.map ascii_of_N)) in H.
  rewrite !map_map in H.
  rewrite !(map_ext _ (fun a => a) ascii_N_embedding), !map_id in H.
  apply (f_equal string_of_list_ascii) in H.
  now rewrite !string_of_list_ascii_of_string in H.
Qed.

(** Two clock readings print alike only if they are equal. *)
Lemma Number_toString_inj (n1 n2 : N) :
  Number_toString n1 = Number_toString n2 -> n1 = n2.
Proof.
  unfold Number_toString. intros H. apply lit_inj in H.
  apply (f_equal NilEmpty.uint_of_string) in H.
  rewrite !NilEmpty.usu in H. injection H as H.
  apply (f_equal N.of_uint) in H.
  now rewrite !DecimalN.Unsigned.of_to in H.
Qed.

Lemma generated_ids (es : list Event) (w : World) :
  List.map ga_id (generated es w)
  = List.map Number_toString (commit_clocks es w).
Proof.
  revert w. induction es as [|e es IH]; intros w; [reflexivity|].
  cbn [generated commit_clocks].
  destruct e; try (simpl; apply IH).
  pose proof (providerSettles_facts i env w) as F. cbv zeta in F.
  destruct F as [_ F]. unfold committed.
  destruct (fst (providerSettles i env w)) as [[a| |]|]; try apply IH.
  destruct F as (_ & _ & _ & _ & _ & F & _).
  cbn [List.map]. now rewrite F, IH.
Qed.

(** C9 as stated fails: two generations that end within the same
    millisecond commit two entries, with different object URLs, that carry
    the same identifier. *)
Lemma same_millisecond_same_identifier :
  List.map ga_audioUrl (generated same_millisecond initialWorld) = [0; 1] /\
  List.map ga_id (generated same_millisecond initialWorld)
  = [lit "1757789650147"; lit "1757789650147"] /\
  ~ NoDup (List.map ga_id (generated same_millisecond initialWorld)).
Proof.
  assert (E : List.map ga_id (generated same_millisecond initialWorld)
              = [lit "1757789650147"; lit "1757789650147"])
    by (vm_compute; reflexivity).
  split; [vm_compute; reflexivity|]. split; [exact E|].
  rewrite E. intros H. inversion H as [|x l Hn _]. apply Hn. now left.
Qed.

(** C9, amended: the identifier of an entry is the decimal text of the
    millisecond clock at its creation, so the entries created along a run
    have pairwise distinct identifiers exactly when the clock readings at
    their creations are pairwise distinct. *)
Theorem identifiers_distinct_iff_clock_distinct (es : list Event) (w : World) :
  List.map ga_id (generated es w)
  = List.map Number_toString (commit_clocks es w) /\
  (NoDup (commit_clocks es w) <-> NoDup (List.map ga_id (generated es w))).
Proof.
  split; [apply generated_ids|]. rewrite generated_ids. split.
  - induction 1 as [|t l Hn _ IH]; simpl; constructor; [|exact IH].
    intros Hin. apply in_map_iff in Hin as (t' & Ht & Hin).
    apply Number_toString_inj in Ht. now subst t'.
  - apply NoDup_map_inv.
Qed.

Lemma identifiers_distinct_iff_clock_distinct_witness :
  NoDup (List.map ga_id (generated eleven_generations initialWorld)).
Proof.
  apply (proj2 (identifiers_distinct_iff_clock_distinct eleven_generations
                  initialWorld)).
  vm_compute. repeat (constructor; [simpl; intuition discriminate|]).
  constructor.
Defined.

(** * Further properties of the code *)

(** ** The branches of the response decoder *)

(** X1: for a response that is not JSON by its content type, both decodings
    take the body as it is and make no call; the main decoding alone
    rejects an empty body, and only when the content type does not name
    audio either (an absent header counts as such). *)
Theorem body_taken_unchanged_unless_json
  (nt : jsstring -> FetchResult) (r : Response) (w : World) :
  contentType_includes (content_type r) (lit "application/json") = false ->
  previewVoice_decode nt r w = (Ret (Some (blob_body r)), w) /\
  (contentType_includes (content_type r) (lit "audio") = true \/
   blob_size (blob_body r) <> 0 ->
   generateVoice_decode nt r w = (Ret (blob_body r), w)) /\
  (contentType_includes (content_type r) (lit "audio") = false ->
   blob_size (blob_body r) = 0 ->
   generateVoice_decode nt r w = (Throw EmptyResponse, w)).
Proof.
  intros Hj. unfold previewVoice_decode, generateVoice_decode. rewrite Hj.
  split; [reflexivity|]. split.
  - intros [Ha | Hs].
    + now rewrite Ha.
    + destruct (contentType_includes _ (lit "audio")); [reflexivity|].
      cbv zeta. apply Nat.eqb_neq in Hs. now rewrite Hs.
  - intros Ha Hs. rewrite Ha. cbv zeta. now rewrite Hs.
Qed.

Lemma body_taken_unchanged_unless_json_witness :
  generateVoice_decode noNetwork bareResponse initialWorld
  = (Ret (blob_body bareResponse), initialWorld) /\
  generateVoice_decode noNetwork emptyResponse initialWorld
  = (Throw EmptyResponse, initialWorld).
Proof.
  split.
  - apply (proj1 (proj2 (body_taken_unchanged_unless_json noNetwork
                           bareResponse initialWorld eq_refl))).
    right. discriminate.
  - apply (proj2 (proj2 (body_taken_unchanged_unless_json noNetwork
                           emptyResponse initialWorld eq_refl)));
      reflexivity.
Defined.

(** A string that starts with [p] starts with every start of [p]. *)
Lemma startsWith_trans (s p q : jsstring) :
  startsWith s p = true -> startsWith p q = true -> startsWith s q = true.
Proof.
  revert s p. induction q as [|c q IH]; intros s p Hsp Hpq.
  - destruct s; reflexivity.
  - destruct p as [|b p]; [discriminate|].
    destruct s as [|a s]; [discriminate|].
    simpl in *. apply andb_prop in Hsp as [E1 H1].
    apply andb_prop in Hpq as [E2 H2].
    apply N.eqb_eq in E1, E2. subst. rewrite N.eqb_refl. simpl.
    now apply (IH s p).
Qed.

(** Reading the envelope leaves the world alone. *)
Lemma envelope_read (j : JSValue) (content : JSValue) (w : World) :
  fst (has_message j w) = Ret true ->
  fst (message_content j w) = Ret content ->
  has_message j w = (Ret true, w) /\ message_content j w = (Ret content, w).
Proof.
  intros Hh Hc.
  pose proof (has_message_pure j w) as Ph.
  pose proof (message_content_pure j w) as Pc.
  destruct (has_message j w) as [oh wh], (message_content j w) as [oc wc].
  simpl in *. now subst.
Qed.

(** X2: when the message of the envelope is a string that starts with [http]
    and is no data URI, the main decoding makes one call, to exactly that
    URL, and the answer decides: its body is the payload if it is OK, and
    decoding fails if it is not or if the call is rejected.  The test for
    [https] of line 128 never decides, a string that starts with [https]
    starting with [http]. *)
Theorem indirect_url_is_fetched_once
  (nt : jsstring -> FetchResult) (r : Response) (j : JSValue) (m : jsstring)
  (w : World) :
  contentType_includes (content_type r) (lit "application/json") = true ->
  json_body r = Some j ->
  fst (has_message j w) = Ret true ->
  fst (message_content j w) = Ret (JString m) ->
  startsWith m (lit "data:audio") = false ->
  startsWith m (lit "http") || startsWith m (lit "https") = true ->
  startsWith m (lit "http") = true /\
  generateVoice_decode nt r w
  = (match nt m with
     | Rejected => Throw FetchRejected
     | Resolved audioResponse =>
         if ok audioResponse then Ret (blob_body audioResponse)
         else Throw FailedToFetchAudio
     end, issueFetch (AudioFetch m) w).
Proof.
  intros Hct Hj Hh Hc Hd Hu.
  destruct (envelope_read j (JString m) w Hh Hc) as [Eh Ec].
  split.
  - apply orb_prop in Hu as [Hu|Hu]; [exact Hu|].
    now apply (startsWith_trans m (lit "https") (lit "http")).
  - unfold generateVoice_decode. rewrite Hct.
    unfold bind, await_json. rewrite Hj. unfold ret at 1. cbv beta iota.
    rewrite Eh. cbv beta iota. rewrite Ec. cbv beta iota. rewrite Hd, Hu.
    unfold fetch_audio, bind, modify, await_fetch.
    destruct (nt m) as [|a]; [reflexivity|].
    unfold ret at 1. cbv beta iota. destruct (ok a); reflexivity.
Qed.

Lemma indirect_url_is_fetched_once_witness :
  generateVoice_decode netAudio indirectResponse initialWorld
  = (Ret (blob_body audioResponse),
     issueFetch (AudioFetch (lit "https://x/y.mp3")) initialWorld).
Proof.
  exact (proj2 (indirect_url_is_fetched_once netAudio indirectResponse
                  (envelope (JString (lit "https://x/y.mp3")))
                  (lit "https://x/y.mp3") initialWorld
                  eq_refl eq_refl eq_refl eq_refl eq_refl eq_refl)).
Defined.

(** X3: how the main decoding fails on a JSON response: a body that is not
    JSON rejects [json()]; the body [null] makes the first property read
    throw; an object without a truthy [choices], or whose [choices] is an
    empty array, has no audio data; and a message content that is no string,
    or a string that is neither a data URI of audio nor an [http] URL, is an
    unexpected format. *)
Theorem json_envelope_failures
  (nt : jsstring -> FetchResult) (r : Response) (w : World) :
  contentType_includes (content_type r) (lit "application/json") = true ->
  (json_body r = None ->
   generateVoice_decode nt r w = (Throw SyntaxError, w)) /\
  (json_body r = Some JNull ->
   generateVoice_decode nt r w = (Throw TypeError, w)) /\
  (forall props,
      json_body r = Some (JObject props) ->
      truthy (lookup_prop (lit "choices") props) = false \/
      lookup_prop (lit "choices") props = JArray [] ->
      generateVoice_decode nt r w = (Throw NoAudioData, w)) /\
  (forall j content,
      json_body r = Some j ->
      fst (has_message j w) = Ret true ->
      fst (message_content j w) = Ret content ->
      (forall m, content = JString m ->
                 startsWith m (lit "data:audio") = false /\
                 startsWith m (lit "http") = false) ->
      generateVoice_decode nt r w = (Throw UnexpectedResponseFormat, w)).
Proof.
  intros Hct. unfold generateVoice_decode. rewrite Hct.
  unfold bind at 1, await_json. repeat split.
  - intros ->. reflexivity.
  - intros ->. reflexivity.
  - intros props -> H. unfold ret at 1. cbv beta iota.
    unfold bind at 1, has_message, bind, orTypeError, get_prop, ret.
    cbv beta iota. destruct H as [H | H]; rewrite H; reflexivity.
  - intros j content -> Hh Hc Hm. unfold ret at 1. cbv beta iota.
    destruct (envelope_read j content w Hh Hc) as [Eh Ec].
    unfold bind. rewrite Eh. cbv beta iota. rewrite Ec. cbv beta iota.
    destruct content as [| |b|q|m|elems|props]; try reflexivity.
    destruct (Hm m eq_refl) as [H1 H2]. rewrite H1.
    assert (H3 : startsWith m (lit "https") = false).
    { destruct (startsWith m (lit "https")) eqn:E; [|reflexivity].
      rewrite <- H2. symmetry.
      now apply (startsWith_trans m (lit "https") (lit "http")). }
    now rewrite H2, H3.
Qed.

Lemma json_envelope_failures_witness :
  generateVoice_decode noNetwork
    (mkResponse 200 (Some (lit "application/json")) (Some (JObject []))
       (mkBlob [] []))
    initialWorld
  = (Throw NoAudioData, initialWorld) /\
  generateVoice_decode noNetwork
    (jsonResponse_of (JString (lit "ftp://x/y.mp3"))) initialWorld
  = (Throw UnexpectedResponseFormat, initialWorld).
Proof.
  split.
  - apply (proj1 (proj2 (proj2 (json_envelope_failures noNetwork
             (mkResponse 200 (Some (lit "application/json"))
                (Some (JObject [])) (mkBlob [] []))
             initialWorld eq_refl))) [] eq_refl).
    left. reflexivity.
  - apply (proj2 (proj2 (proj2 (json_envelope_failures noNetwork
             (jsonResponse_of (JString (lit "ftp://x/y.mp3")))
             initialWorld eq_refl)))
             (envelope (JString (lit "ftp://x/y.mp3")))
             (JString (lit "ftp://x/y.mp3")) eq_refl eq_refl eq_refl).
    intros m [= <-]. split; reflexivity.
Defined.

(** ** The byte loop *)

Lemma base64_value_bound (c : code_unit) (v : N) :
  base64_value c = Some v -> (v < 64)%N.
Proof.
  unfold base64_value.
  destruct ((65 <=? c) && (c <=? 90))%N eqn:E1.
  { apply andb_prop in E1 as [A B]. apply N.leb_le in A, B.
    intros [= <-]. lia. }
  destruct ((97 <=? c) && (c <=? 122))%N eqn:E2.
  { apply andb_prop in E2 as [A B]. apply N.leb_le in A, B.
    intros [= <-]. lia. }
  destruct ((48 <=? c) && (c <=? 57))%N eqn:E3.
  { apply andb_prop in E3 as [A B]. apply N.leb_le in A, B.
    intros [= <-]. lia. }
  destruct (c =? 43)%N; [intros [= <-]; lia|].
  destruct (c =? 47)%N; [intros [= <-]; lia|discriminate].
Qed.

Lemma base64_values_bound (s : jsstring) :
  forall vs, base64_values s = Some vs -> Forall (fun v => (v < 64)%N) vs.
Proof.
  induction s as [|c s IH]; simpl; intros vs H.
  - injection H as <-. constructor.
  - destruct (base64_value c) as [v|] eqn:Ev; [|discriminate].
    destruct (base64_values s) as [vs'|]; [|discriminate].
    injection H as <-. constructor; [now apply (base64_value_bound c)|].
    now apply IH.
Qed.

Lemma sextets_to_bytes (a b c d : N) :
  (a < 64 -> b < 64 -> c < 64 -> d < 64 ->
   a * 4 + b / 16 < 256 /\ (b mod 16) * 16 + c / 4 < 256 /\
   (c mod 4) * 64 + d < 256)%N.
Proof.
  intros Ha Hb Hc Hd.
  assert (b / 16 < 4)%N by (apply N.Div0.div_lt_upper_bound; lia).
  assert (c / 4 < 16)%N by (apply N.Div0.div_lt_upper_bound; lia).
  assert (b mod 16 < 16)%N by (apply N.mod_lt; lia).
  assert (c mod 4 < 4)%N by (apply N.mod_lt; lia).
  lia.
Qed.

Lemma base64_bytes_bound (n : nat) :
  forall vs, List.length vs <= n ->
             Forall (fun v => (v < 64)%N) vs ->
             Forall (fun v => (v < 256)%N) (base64_bytes vs).
Proof.
  induction n as [|n IH]; intros vs Hn Hv.
  - destruct vs; [constructor|simpl in Hn; lia].
  - destruct vs as [|a [|b [|c [|d rest]]]]; simpl; try constructor.
    + inversion Hv as [|? ? Ha Hv1]; subst.
      inversion Hv1 as [|? ? Hb _]; subst.
      destruct (sextets_to_bytes a b 0 0 Ha Hb) as (B1 & _); lia.
    + constructor.
    + inversion Hv as [|? ? Ha Hv1]; subst.
      inversion Hv1 as [|? ? Hb Hv2]; subst.
      inversion Hv2 as [|? ? Hc _]; subst.
      destruct (sextets_to_bytes a b c 0 Ha Hb Hc) as (B1 & _); lia.
    + inversion Hv as [|? ? Ha Hv1]; subst.
      inversion Hv1 as [|? ? Hb Hv2]; subst.
      inversion Hv2 as [|? ? Hc _]; subst.
      destruct (sextets_to_bytes a b c 0 Ha Hb Hc) as (_ & B2 & _);
        [lia|].
      constructor; [exact B2|constructor].
    + inversion Hv as [|? ? Ha Hv1]; subst.
      inversion Hv1 as [|? ? Hb Hv2]; subst.
      inversion Hv2 as [|? ? Hc Hv3]; subst.
      inversion Hv3 as [|? ? Hd Hv4]; subst.
      destruct (sextets_to_bytes a b c d Ha Hb Hc Hd) as (B1 & B2 & B3).
      exact B1.
    + inversion Hv as [|? ? Ha Hv1]; subst.
      inversion Hv1 as [|? ? Hb Hv2]; subst.
      inversion Hv2 as [|? ? Hc Hv3]; subst.
      inversion Hv3 as [|? ? Hd Hv4]; subst.
      destruct (sextets_to_bytes a b c d Ha Hb Hc Hd) as (B1 & B2 & B3).
      constructor; [exact B2|]. constructor; [exact B3|].
      apply IH; [simpl in Hn; lia|exact Hv4].
Qed.

(** X4: the loop that copies [atob]'s string into the [Uint8Array] loses
    nothing: every code unit that [atob] returns is below 256, so the bytes
    of the payload are the code units of the decoded string. *)
Theorem byte_loop_copies_atob (data binaryString : jsstring) :
  atob data = Some binaryString ->
  Forall (fun c => (c < 256)%N) binaryString /\
  Uint8Array_of binaryString = binaryString.
Proof.
  unfold atob. destruct (Nat.eqb _ 1); [discriminate|].
  destruct (base64_values _) as [vs|] eqn:Ev; [|discriminate].
  intros [= <-].
  assert (B : Forall (fun v => (v < 256)%N) (base64_bytes vs)).
  { apply (base64_bytes_bound (List.length vs)); [lia|].
    now apply (base64_values_bound _ vs Ev). }
  split; [exact B|].
  unfold Uint8Array_of. induction B as [|x l Hx _ IH]; simpl; [reflexivity|].
  rewrite IH. f_equal. now apply N.mod_small.
Qed.

Lemma byte_loop_copies_atob_witness :
  Uint8Array_of [104; 105]%N = [104; 105]%N.
Proof.
  exact (proj2 (byte_loop_copies_atob (lit "aGk=") [104; 105]%N eq_refl)).
Defined.

(** ** The decoded payload and the registry of object URLs *)

Lemma oblivious_ret {A} (a : A) : oblivious (ret a).
Proof. intros w w'. reflexivity. Qed.

Lemma oblivious_throw {A} (e : Exn) : oblivious (@throw A e).
Proof. intros w w'. reflexivity. Qed.

Lemma oblivious_orTypeError {A} (o : option A) : oblivious (orTypeError o).
Proof. intros w w'. destruct o; reflexivity. Qed.

Lemma oblivious_await_fetch (r : FetchResult) : oblivious (await_fetch r).
Proof. intros w w'. destruct r; reflexivity. Qed.

Lemma oblivious_await_json (r : Response) : oblivious (await_json r).
Proof. intros w w'. unfold await_json. destruct (json_body r); reflexivity. Qed.

Lemma oblivious_modify (f : World -> World) : oblivious (modify f).
Proof. intros w w'. reflexivity. Qed.

Lemma oblivious_bind {A B} (m : M A) (k : A -> M B) :
  oblivious m -> (forall a, oblivious (k a)) -> oblivious (bind m k).
Proof.
  intros Hm Hk w w'. unfold bind. specialize (Hm w w').
  destruct (m w) as [[a| |] w1], (m w') as [[a'| |] w1']; simpl in Hm;
    try discriminate; try reflexivity.
  - injection Hm as <-. apply Hk.
  - now injection Hm as <-.
Qed.

Lemma oblivious_if {A} (b : bool) (m1 m2 : M A) :
  oblivious m1 -> oblivious m2 -> oblivious (if b then m1 else m2).
Proof. now destruct b. Qed.

Create HintDb obliviousness.
#[local] Hint Resolve oblivious_ret oblivious_throw oblivious_orTypeError
  oblivious_await_fetch oblivious_await_json oblivious_modify oblivious_bind
  oblivious_if : obliviousness.

Lemma has_message_oblivious (j : JSValue) : oblivious (has_message j).
Proof. unfold has_message. auto 10 with obliviousness. Qed.

Lemma message_content_oblivious (j : JSValue) : oblivious (message_content j).
Proof. unfold message_content. auto 10 with obliviousness. Qed.

Lemma decode_dataURI_oblivious (m : jsstring) : oblivious (decode_dataURI m).
Proof. unfold decode_dataURI. destruct (atob _); auto with obliviousness. Qed.

Lemma fetch_audio_oblivious (nt : jsstring -> FetchResult) (m : jsstring) :
  oblivious (fetch_audio nt m).
Proof. unfold fetch_audio. auto with obliviousness. Qed.

#[local] Hint Resolve has_message_oblivious message_content_oblivious
  decode_dataURI_oblivious fetch_audio_oblivious : obliviousness.

(** What a decoding yields depends on the response and on the network
    only, not on the state of the page. *)
Lemma generateVoice_decode_oblivious (nt : jsstring -> FetchResult)
  (r : Response) : oblivious (generateVoice_decode nt r).
Proof.
  unfold generateVoice_decode.
  apply oblivious_if; [|auto with obliviousness].
  apply oblivious_bind; [auto with obliviousness|intros j].
  apply oblivious_bind; [auto with obliviousness|intros present].
  apply oblivious_if; [|auto with obliviousness].
  apply oblivious_bind; [auto with obliviousness|intros message].
  destruct message; auto 10 with obliviousness.
Qed.

(** The [try] block, case by case. *)
Lemma generateVoice_try_cases (c : Closure) (env : Env) (w : World) :
  generateVoice_try c env w =
  match provider env with
  | Rejected => (Throw FetchRejected, w)
  | Resolved r =>
      if ok r then
        match generateVoice_decode (net env) r (arrived c w) with
        | (Ret blob, w1) =>
            match loadedmetadata env with
            | Some d =>
                let a := newAudioOf c env (List.length (objectURLs w1)) d in
                (Ret a, commit a (snd (createObjectURL blob w1)))
            | None => (Pending, snd (createObjectURL blob w1))
            end
        | (Throw e, w1) => (Throw e, w1)
        | (Pending, w1) => (Pending, w1)
        end
      else (Throw (HttpError (status r)), arrived c w)
  end.
Proof.
  unfold generateVoice_try, await_fetch.
  destruct (provider env) as [|r]; [reflexivity|].
  unfold bind at 1, ret at 1. unfold bind at 1, modify at 1.
  unfold bind at 1, modify at 1. fold (arrived c w).
  unfold bind at 1. destruct (ok r); [|reflexivity]. simpl.
  unfold bind at 1.
  destruct (generateVoice_decode (net env) r (arrived c w)) as [[blob| |] w1];
    try reflexivity.
  unfold bind at 1, lift at 1. simpl.
  unfold bind at 1, await_loadedmetadata.
  destruct (loadedmetadata env); reflexivity.
Qed.

(** The registry only grows. *)
Lemma generateVoice_resume_registry (c : Closure) (env : Env) (w : World) :
  exists l,
    objectURLs (snd (generateVoice_resume c env w)) = objectURLs w ++ l.
Proof.
  destruct (provider env) as [|r] eqn:E.
  - rewrite (generateVoice_resume_rejected c env w E). exists []. simpl.
    now rewrite app_nil_r.
  - destruct (generateVoice_resume_resolved c env w r E) as [fl F].
    cbv zeta in F.
    destruct (generateVoice_resume c env w) as [[a| |] w']; simpl.
    + destruct F as (blob & d & _ & _ & ->). now exists [blob].
    + subst w'. exists []. simpl. now rewrite app_nil_r.
    + destruct F as (_ & blob & ->). now exists [blob].
Qed.

Lemma step_registry (e : Event) (w : World) :
  exists l, objectURLs (step e w) = objectURLs w ++ l.
Proof.
  destruct e; simpl.
  - exists []. destruct (generateVoice_keeps w) as (_ & _ & ->).
    now rewrite app_nil_r.
  - exists []. destruct (intervalFires_keeps id random w) as (_ & _ & -> & _).
    now rewrite app_nil_r.
  - unfold providerSettles.
    destruct (nth_error (awaiting w) i) as [c|];
      [|exists []; simpl; now rewrite app_nil_r].
    destruct (generateVoice_resume_registry c env
                (setAwaiting (remove_nth i (awaiting w)) w)) as [l Hl].
    exists l.
    destruct (generateVoice_resume c env _) as [o w']. exact Hl.
  - exists []. simpl. now rewrite app_nil_r.
  - exists []. simpl. now rewrite app_nil_r.
  - exists []. destruct (historySelected_keeps i w) as (_ & -> & _).
    now rewrite app_nil_r.
Qed.

Lemma run_registry (es : list Event) (w : World) :
  exists l, objectURLs (run es w) = objectURLs w ++ l.
Proof.
  revert w. induction es as [|e es IH]; intros w; simpl.
  - exists []. now rewrite app_nil_r.
  - destruct (IH (step e w)) as [l2 H2], (step_registry e w) as [l1 H1].
    exists (l1 ++ l2). now rewrite H2, H1, app_assoc.
Qed.

(** X5: the audio of a committed entry is the payload that the decoding of the
    provider's OK answer yields, and it stays so: whatever happens to the
    page afterwards, the object URL of the entry resolves to that payload
    in the registry. *)
Theorem committed_audio_is_decoded_payload (i : nat) (env : Env) (w : World)
  (a : GeneratedAudio) :
  committed (ProviderSettles i env) w = Some a ->
  exists r blob,
    provider env = Resolved r /\ ok r = true /\
    (forall w0, fst (generateVoice_decode (net env) r w0) = Ret blob) /\
    forall es,
      nth_error (objectURLs (run es (step (ProviderSettles i env) w)))
        (ga_audioUrl a) = Some blob.
Proof.
  unfold committed. cbn [step]. unfold providerSettles.
  destruct (nth_error (awaiting w) i) as [c|]; [|discriminate].
  set (w0 := setAwaiting (remove_nth i (awaiting w)) w).
  unfold generateVoice_resume. rewrite generateVoice_try_cases.
  destruct (provider env) as [|r]; [discriminate|].
  destruct (ok r) eqn:Eok; [|discriminate].
  pose proof (generateVoice_decode_oblivious (net env) r (arrived c w0)) as Ob.
  destruct (generateVoice_decode (net env) r (arrived c w0))
    as [[blob| |] w1]; try discriminate.
  destruct (loadedmetadata env) as [d|]; [|discriminate].
  cbn [fst snd]. intros [= <-]. exists r, blob.
  split; [reflexivity|]. split; [exact Eok|]. split.
  - intros w2. symmetry. apply Ob.
  - intros es. destruct (run_registry es
      (finally (commit (newAudioOf c env (List.length (objectURLs w1)) d)
                  (snd (createObjectURL blob w1))))) as [l ->].
    simpl. rewrite <- app_assoc. rewrite nth_error_app2 by lia.
    now rewrite Nat.sub_diag.
Qed.

Lemma committed_audio_is_decoded_payload_witness :
  committed (ProviderSettles 0 (env_ok 7)) (generateVoice typedWorld)
  = Some typedEntry /\
  exists r blob,
    provider (env_ok 7) = Resolved r /\ ok r = true /\
    (forall w0, fst (generateVoice_decode (net (env_ok 7)) r w0) = Ret blob) /\
    forall es,
      nth_error
        (objectURLs (run es (step (ProviderSettles 0 (env_ok 7))
                               (generateVoice typedWorld))))
        (ga_audioUrl typedEntry) = Some blob.
Proof.
  split; [reflexivity|].
  exact (committed_audio_is_decoded_payload 0 (env_ok 7)
           (generateVoice typedWorld) typedEntry eq_refl).
Defined.

(** ** Invariants of the page *)

Lemma generateVoice_resume_timers (c : Closure) (env : Env) (w : World) :
  let w' := snd (generateVoice_resume c env w) in
  nextInterval w' = nextInterval w /\
  intervals w' =
  match provider env with
  | Rejected => intervals w
  | Resolved _ =>
      filter (fun i => negb (N.eqb i (c_progressInterval c))) (intervals w)
  end.
Proof.
  destruct (provider env) as [|r] eqn:E.
  - rewrite (generateVoice_resume_rejected c env w E). now split.
  - destruct (generateVoice_resume_resolved c env w r E) as [fl F].
    cbv zeta in F |- *.
    destruct (generateVoice_resume c env w) as [[a| |] w']; simpl.
    + destruct F as (blob & d & _ & _ & ->). now split.
    + subst w'. now split.
    + destruct F as (_ & blob & ->). now split.
Qed.

Lemma remove_nth_single {A} (i : nat) (c x : A) :
  nth_error [x] i = Some c -> remove_nth i [x] = [].
Proof. destruct i as [|[|i]]; simpl; intros H; congruence. Qed.

(** A settling event takes the resumed invocation off the list and puts
    none on it. *)
Lemma providerSettles_awaiting (i : nat) (env : Env) (w : World) :
  awaiting (snd (providerSettles i env w)) =
  match nth_error (awaiting w) i with
  | Some _ => remove_nth i (awaiting w)
  | None => awaiting w
  end.
Proof.
  unfold providerSettles.
  destruct (nth_error (awaiting w) i) as [c|]; [|reflexivity].
  pose proof (generateVoice_resume_facts c env
                (setAwaiting (remove_nth i (awaiting w)) w)) as F.
  cbv zeta in F. destruct F as (_ & F & _).
  destruct (generateVoice_resume c env _) as [o w']. exact F.
Qed.

Lemma single_flight_step (e : Event) (w : World) :
  awaiting w = [] \/ (isGenerating w = true /\ List.length (awaiting w) = 1) ->
  awaiting (step e w) = [] \/
  (isGenerating (step e w) = true /\ List.length (awaiting (step e w)) = 1).
Proof.
  intros I. destruct e; simpl.
  - destruct (guard w) eqn:G.
    + now rewrite generateVoice_guarded.
    + rewrite (generateVoice_started w G). simpl. right.
      destruct I as [-> | [Hg _]]; [now split|].
      rewrite guard_spec, Hg, orb_true_r in G. discriminate.
  - destruct (intervalFires_keeps id random w)
      as (_ & _ & _ & -> & -> & _). exact I.
  - rewrite providerSettles_awaiting.
    destruct (nth_error (awaiting w) i) as [c|] eqn:E.
    + left. destruct I as [I | [_ I]];
        [rewrite I in E; destruct i; discriminate|].
      destruct (awaiting w) as [|x [|y l]]; try discriminate.
      now apply (remove_nth_single i c x).
    + destruct I as [I | I]; [now left|].
      unfold providerSettles. rewrite E. now right.
  - exact I.
  - exact I.
  - destruct (historySelected_keeps i w) as (_ & _ & -> & -> & _). exact I.
Qed.

(** X6: at most one invocation of [generateVoice] ever awaits the provider,
    and while one does the in-flight flag is set. *)
Theorem at_most_one_generation_in_flight (es : list Event) :
  let w := run es initialWorld in
  List.length (awaiting w) <= 1 /\
  (awaiting w <> [] -> isGenerating w = true).
Proof.
  assert (I : forall es w,
             awaiting w = [] \/
             (isGenerating w = true /\ List.length (awaiting w) = 1) ->
             awaiting (run es w) = [] \/
             (isGenerating (run es w) = true /\
              List.length (awaiting (run es w)) = 1)).
  { intros es'. induction es' as [|e es' IH]; intros w Hw; [exact Hw|].
    simpl. apply IH. now apply single_flight_step. }
  cbv zeta. destruct (I es initialWorld (or_introl eq_refl)) as [-> | [Hg Hl]].
  - split; [simpl; lia|]. intros H. now destruct H.
  - split; [lia|]. intros _. exact Hg.
Qed.

Lemma timers_fresh_step (e : Event) (w : World) :
  timers_fresh w -> timers_fresh (step e w).
Proof.
  unfold timers_fresh. intros T. destruct e; simpl.
  - destruct (guard w) eqn:G.
    + now rewrite generateVoice_guarded.
    + rewrite (generateVoice_started w G). simpl. apply Forall_app. split.
      * eapply Forall_impl; [|exact T]. simpl. intros; lia.
      * constructor; [lia|constructor].
  - unfold intervalFires. destruct (existsb _ _); exact T.
  - unfold providerSettles.
    destruct (nth_error (awaiting w) i) as [c|]; [|exact T].
    pose proof (generateVoice_resume_timers c env
                  (setAwaiting (remove_nth i (awaiting w)) w)) as F.
    cbv zeta in F. destruct (generateVoice_resume c env _) as [o w'].
    simpl in *. destruct F as [-> ->].
    destruct (provider env); [exact T|].
    apply Forall_forall. intros x Hx. apply filter_In in Hx as [Hx _].
    rewrite Forall_forall in T. now apply T.
  - exact T.
  - exact T.
  - unfold historySelected. destruct (nth_error _ _); exact T.
Qed.

Lemma filter_fresh (id : N) (l : list N) :
  Forall (fun i => (i < id)%N) l ->
  filter (fun i => negb (N.eqb i id)) (l ++ [id]) = l.
Proof.
  intros H. rewrite filter_app. simpl. rewrite N.eqb_refl. simpl.
  rewrite app_nil_r. induction H as [|x l Hx _ IH]; simpl; [reflexivity|].
  replace (N.eqb x id) with false by (symmetry; apply N.eqb_neq; lia).
  simpl. now rewrite IH.
Qed.

(** X7: the interval timers of the page: every active one was handed out by
    [setInterval]; a generation whose request is answered, well or badly,
    leaves the active intervals exactly as they were before the click; one
    whose request is rejected leaves one more, its own. *)
Theorem answered_generation_leaves_no_interval :
  (forall es, timers_fresh (run es initialWorld)) /\
  (forall w es env,
      timers_fresh w -> guard w = false ->
      forallb (fun e => negb (settles e)) es = true ->
      let w' := run (ClickGenerate :: es
                       ++ [ProviderSettles (List.length (awaiting w)) env]) w in
      intervals w' =
      match provider env with
      | Resolved _ => intervals w
      | Rejected => intervals w ++ [nextInterval w]
      end).
Proof.
  split.
  - intros es.
    assert (I : forall es w, timers_fresh w -> timers_fresh (run es w)).
    { intros es'. induction es' as [|e es' IH]; intros w Hw; [exact Hw|].
      simpl. apply IH. now apply timers_fresh_step. }
    apply I. constructor.
  - intros w es env T G Hq w'. unfold w'. cbn [run step].
    rewrite run_app. cbn [run step].
    assert (Hs : isGenerating (generateVoice w) = true)
      by now rewrite (generateVoice_started w G).
    destruct (quiet_run es (generateVoice w) Hq Hs) as (_ & K2 & _ & K4 & _).
    set (w1 := run es (generateVoice w)) in *.
    unfold providerSettles.
    rewrite K2, (generateVoice_started w G). cbn [awaiting].
    rewrite nth_error_app2, Nat.sub_diag by lia. cbn [nth_error].
    match goal with
    | |- context [generateVoice_resume ?c env ?w0] =>
        pose proof (generateVoice_resume_timers c env w0) as F;
        destruct (generateVoice_resume c env w0) as [o w2]
    end.
    cbv zeta in F. simpl in F. destruct F as [_ F]. simpl.
    rewrite F, K4, (generateVoice_started w G). cbn [intervals].
    destruct (provider env); [reflexivity|]. now apply filter_fresh.
Qed.

Lemma answered_generation_leaves_no_interval_witness :
  intervals (run (ClickGenerate :: impatient
                    ++ [ProviderSettles 0 env_http_error]) usedWorld)
  = intervals usedWorld /\
  intervals (run (ClickGenerate :: impatient
                    ++ [ProviderSettles 0 env_rejected]) usedWorld)
  = [1%N].
Proof.
  assert (T : timers_fresh usedWorld) by (vm_compute; constructor).
  split.
  - exact (proj2 answered_generation_leaves_no_interval usedWorld impatient
             env_http_error T eq_refl eq_refl).
  - exact (proj2 answered_generation_leaves_no_interval usedWorld impatient
             env_rejected T eq_refl eq_refl).
Defined.

(** ** The entry, the request, the alert, and the page that waits for ever *)

(** The entry that a settling event commits. *)
Lemma committed_entry_shape (i : nat) (env : Env) (w : World)
  (a : GeneratedAudio) :
  committed (ProviderSettles i env) w = Some a ->
  exists c d,
    nth_error (awaiting w) i = Some c /\
    loadedmetadata env = Some d /\
    a = newAudioOf c env (List.length (objectURLs w)) d.
Proof.
  unfold committed, providerSettles.
  destruct (nth_error (awaiting w) i) as [c|]; [|discriminate].
  set (w0 := setAwaiting (remove_nth i (awaiting w)) w).
  destruct (provider env) as [|r] eqn:E.
  - rewrite (generateVoice_resume_rejected c env w0 E). discriminate.
  - destruct (generateVoice_resume_resolved c env w0 r E) as [fl F].
    cbv zeta in F.
    destruct (generateVoice_resume c env w0) as [[a'| |] w']; simpl;
      try discriminate.
    intros [= <-]. destruct F as (blob & d & Hd & Ha & _).
    now exists c, d.
Qed.

(** X8: the entry records the settings of the click, not those of the moment
    the answer arrives; its voice is the voice setting as it is, also when
    that is empty and the request fell back on [rachel]; its duration is
    the one the loaded metadata report. *)
Theorem entry_snapshots_settings_of_click (w : World) (es : list Event)
  (env : Env) (a : GeneratedAudio) :
  guard w = false ->
  forallb (fun e => negb (settles e)) es = true ->
  committed (ProviderSettles (List.length (awaiting w)) env)
    (run es (generateVoice w)) = Some a ->
  ga_settings a = voiceSettings w /\
  ga_voice a = vs_voice (voiceSettings w) /\
  loadedmetadata env = Some (ga_duration a) /\
  ga_createdAt a = new_Date env.
Proof.
  intros G Hq Hc.
  assert (Hs : isGenerating (generateVoice w) = true)
    by now rewrite (generateVoice_started w G).
  destruct (quiet_run es (generateVoice w) Hq Hs) as (_ & K2 & _).
  destruct (committed_entry_shape _ env _ a Hc) as (c & d & Hn & Hd & ->).
  rewrite K2, (generateVoice_started w G) in Hn. cbn [awaiting] in Hn.
  rewrite nth_error_app2, Nat.sub_diag in Hn by lia.
  injection Hn as <-. now repeat split.
Qed.

Lemma entry_snapshots_settings_of_click_witness :
  exists a,
    hd_error (audioHistory
                (run (ClickGenerate :: edits ++ [ProviderSettles 0 (env_ok 7)])
                   typedWorld)) = Some a /\
    ga_settings a = initialVoiceSettings.
Proof.
  eexists. split; [vm_compute; reflexivity|].
  refine (proj1 (entry_snapshots_settings_of_click typedWorld edits (env_ok 7)
                   _ eq_refl eq_refl _)).
  vm_compute. reflexivity.
Defined.

(** X9: the request of a click that passes the guard carries the text as it
    was typed, neither trimmed nor cut; a voice that is never empty and
    stability and similarity that are never zero: an empty voice is sent as
    [rachel] and a zero as 0.75, anything else as it is. *)
Theorem request_carries_text_and_defaults (w : World) :
  guard w = false ->
  exists voice stability similarity,
    fetches (generateVoice w)
    = fetches w ++ [ProviderRequest (text w) voice stability similarity] /\
    voice <> [] /\ ~ (stability == 0)%Q /\ ~ (similarity == 0)%Q /\
    (vs_voice (voiceSettings w) <> [] -> voice = vs_voice (voiceSettings w)) /\
    (vs_voice (voiceSettings w) = [] -> voice = lit "rachel") /\
    (~ (vs_stability (voiceSettings w) == 0)%Q ->
     stability = vs_stability (voiceSettings w)) /\
    ((vs_stability (voiceSettings w) == 0)%Q -> stability = (3 # 4)%Q) /\
    (~ (vs_clarity (voiceSettings w) == 0)%Q ->
     similarity = vs_clarity (voiceSettings w)) /\
    ((vs_clarity (voiceSettings w) == 0)%Q -> similarity = (3 # 4)%Q).
Proof.
  intros G. rewrite (generateVoice_started w G). cbn [fetches].
  unfold providerRequest. do 3 eexists. split; [reflexivity|].
  assert (Hn : forall x, ~ (or_number x (3 # 4) == 0)%Q).
  { intros x. unfold or_number. destruct (Qeq_bool x 0) eqn:E.
    - discriminate.
    - intros H. apply Qeq_bool_iff in H. congruence. }
  assert (Hk : forall x, ~ (x == 0)%Q -> or_number x (3 # 4) = x).
  { intros x H. unfold or_number. destruct (Qeq_bool x 0) eqn:E;
      [|reflexivity]. apply Qeq_bool_iff in E. contradiction. }
  assert (Hz : forall x, (x == 0)%Q -> or_number x (3 # 4) = (3 # 4)%Q).
  { intros x H. unfold or_number. apply Qeq_bool_iff in H. now rewrite H. }
  repeat split; auto.
  - destruct (vs_voice (voiceSettings w)); discriminate.
  - intros H. destruct (vs_voice (voiceSettings w)); [contradiction|].
    reflexivity.
  - intros ->. reflexivity.
Qed.

Lemma request_carries_text_and_defaults_witness :
  fetches (generateVoice blankSettingsWorld)
  = [ProviderRequest (lit "hello world") (lit "rachel") (3 # 4) (1 # 2)].
Proof.
  destruct (request_carries_text_and_defaults blankSettingsWorld eq_refl)
    as (v & s & b & E & _ & _ & _ & _ & Hv & _ & Hs & Hb & _).
  rewrite E, (Hv eq_refl), (Hs ltac:(reflexivity)),
    (Hb ltac:(discriminate)).
  reflexivity.
Defined.

(** X10: a generation that fails shows one alert, and nothing else ever shows
    one. *)
Theorem one_alert_per_failure (e : Event) (w : World) :
  alerts (step e w) = alerts w + (if failed e w then 1 else 0).
Proof.
  destruct e; simpl; try lia.
  - destruct (guard w) eqn:G.
    + rewrite generateVoice_guarded by exact G. lia.
    + rewrite (generateVoice_started w G). simpl. lia.
  - unfold intervalFires. destruct (existsb _ _); simpl; lia.
  - unfold providerSettles.
    destruct (nth_error (awaiting w) i) as [c|]; [|simpl; lia].
    set (w0 := setAwaiting (remove_nth i (awaiting w)) w).
    change (alerts w) with (alerts w0).
    destruct (provider env) as [|r] eqn:E.
    + rewrite (generateVoice_resume_rejected c env w0 E). simpl. lia.
    + destruct (generateVoice_resume_resolved c env w0 r E) as [fl F].
      cbv zeta in F.
      destruct (generateVoice_resume c env w0) as [[a| |] w']; simpl.
      * destruct F as (blob & d & _ & _ & ->). simpl. lia.
      * subst w'. simpl. lia.
      * destruct F as (_ & blob & ->). simpl. lia.
  - unfold historySelected. destruct (nth_error _ _); simpl; lia.
Qed.

(** A page with the flag set, no invocation awaiting and the progress at
    100 stays so under every event. *)
Lemma stuck_step (e : Event) (w : World) :
  isGenerating w = true -> awaiting w = [] -> generationProgress w = 100%Q ->
  isGenerating (step e w) = true /\ awaiting (step e w) = [] /\
  generationProgress (step e w) = 100%Q /\
  fetches (step e w) = fetches w /\
  audioHistory (step e w) = audioHistory w /\
  committed e w = None.
Proof.
  intros Hg Ha Hp. destruct e; simpl.
  - rewrite generateVoice_guarded; [now repeat split|].
    rewrite guard_spec, Hg. apply orb_true_r.
  - unfold intervalFires. destruct (existsb _ _); [|now repeat split].
    simpl. rewrite Hp. now repeat split.
  - unfold providerSettles. rewrite Ha.
    destruct i; simpl; now repeat split.
  - now repeat split.
  - now repeat split.
  - unfold historySelected. destruct (nth_error _ _); now repeat split.
Qed.

(** An invocation that waits for the metadata has set the progress to
    100 and left the flag and the history alone. *)
Lemma providerSettles_pending (i : nat) (env : Env) (w : World) :
  fst (providerSettles i env w) = Some Pending ->
  let w' := snd (providerSettles i env w) in
  isGenerating w' = isGenerating w /\
  generationProgress w' = 100%Q /\
  audioHistory w' = audioHistory w.
Proof.
  unfold providerSettles.
  destruct (nth_error (awaiting w) i) as [c|]; [|discriminate].
  set (w0 := setAwaiting (remove_nth i (awaiting w)) w).
  destruct (provider env) as [|r] eqn:E.
  - rewrite (generateVoice_resume_rejected c env w0 E). discriminate.
  - destruct (generateVoice_resume_resolved c env w0 r E) as [fl F].
    cbv zeta in F.
    destruct (generateVoice_resume c env w0) as [[a| |] w1]; simpl;
      try discriminate.
    intros _. destruct F as (_ & blob & ->). now repeat split.
Qed.

(** X11: when the audio decoded for a generation never reports its metadata,
    [generateVoice] never ends: the in-flight flag stays set and the
    progress stays at 100 under every later event, every later click is
    refused, no request is made and no entry is committed any more. *)
Theorem metadata_never_loaded_blocks_the_page (w : World) (env : Env)
  (es : list Event) :
  guard w = false -> awaiting w = [] ->
  fst (providerSettles 0 env (generateVoice w)) = Some Pending ->
  let stuck := snd (providerSettles 0 env (generateVoice w)) in
  let w' := run es stuck in
  isGenerating w' = true /\
  generationProgress w' = 100%Q /\
  generateVoice w' = w' /\
  fetches w' = fetches stuck /\
  audioHistory w' = audioHistory w /\
  generated es stuck = [].
Proof.
  intros G Ha Hp stuck.
  assert (S0 : isGenerating stuck = true /\ awaiting stuck = [] /\
               generationProgress stuck = 100%Q /\
               audioHistory stuck = audioHistory w).
  { pose proof (providerSettles_pending 0 env (generateVoice w) Hp) as F.
    cbv zeta in F. fold stuck in F. destruct F as (F1 & F2 & F3).
    pose proof (providerSettles_awaiting 0 env (generateVoice w)) as F4.
    fold stuck in F4.
    rewrite (generateVoice_started w G) in F1, F3, F4.
    cbn [isGenerating audioHistory awaiting] in F1, F3, F4.
    rewrite Ha in F4. cbn [app nth_error remove_nth] in F4.
    now repeat split. }
  clearbody stuck. destruct S0 as (H1 & H2 & H3 & H4). rewrite <- H4.
  clear Hp G Ha H4. revert stuck H1 H2 H3.
  induction es as [|e es IH]; intros stuck H1 H2 H3; cbn [run generated].
  - repeat split; auto.
    apply generateVoice_guarded. rewrite guard_spec, H1. apply orb_true_r.
  - destruct (stuck_step e stuck H1 H2 H3) as (K1 & K2 & K3 & K4 & K5 & K6).
    rewrite K6, <- K4, <- K5. now apply IH.
Qed.

Lemma metadata_never_loaded_blocks_the_page_witness :
  let stuck :=
    snd (providerSettles 0 env_never_loaded (generateVoice typedWorld)) in
  isGenerating (run afterwards stuck) = true /\
  generateVoice (run afterwards stuck) = run afterwards stuck /\
  fetches (run afterwards stuck) = fetches stuck.
Proof.
  assert (G : guard typedWorld = false) by (vm_compute; reflexivity).
  assert (A : awaiting typedWorld = []) by reflexivity.
  assert (P : fst (providerSettles 0 env_never_loaded
                     (generateVoice typedWorld))
              = Some Pending) by (vm_compute; reflexivity).
  destruct (metadata_never_loaded_blocks_the_page typedWorld env_never_loaded
              afterwards G A P) as (H1 & _ & H3 & H4 & _).
  exact (conj H1 (conj H3 H4)).
Defined.

(** ** Words, characters and the guard *)

Lemma count_tokens_from_zero (s : jsstring) :
  count_tokens_from true s = 0 <-> forallb is_ws s = true.
Proof.
  induction s as [|c s IH]; simpl; [tauto|].
  destruct (is_ws c); simpl; [exact IH|]. split; discriminate.
Qed.

Lemma count_tokens_from_bound (s : jsstring) :
  forall b, 2 * count_tokens_from b s
            <= List.length s + (if b then 1 else 0).
Proof.
  induction s as [|c s IH]; intros b; simpl; [lia|].
  destruct (is_ws c).
  - specialize (IH true). simpl in IH. destruct b; lia.
  - specialize (IH false). simpl in IH. destruct b; lia.
Qed.

(** X12: the page shows zero words exactly when the guard of Generate finds
    the trimmed text empty, that is when the text is empty or all white
    space; a text of [n] code units has at most [(n + 1) / 2] words; and the
    estimated duration in seconds never exceeds the number of words. *)
Theorem zero_words_iff_generate_refuses_text (t : jsstring) :
  (wordCount t = 0 <-> is_empty (trim t) = true) /\
  (wordCount t = 0 <-> forallb is_ws t = true) /\
  2 * wordCount t <= S (charCount t) /\
  (0 <= estimatedDuration t <= Z.of_nat (wordCount t))%Z.
Proof.
  rewrite is_empty_trim. unfold estimatedDuration.
  rewrite Qceiling_div_5_2, wordCount_count_tokens. unfold count_tokens.
  split; [apply count_tokens_from_zero|].
  split; [apply count_tokens_from_zero|]. split.
  - pose proof (count_tokens_from_bound t true) as B. cbv iota in B.
    unfold charCount. lia.
  - set (n := Z.of_nat (count_tokens_from true t)).
    assert (0 <= n)%Z by (unfold n; lia).
    pose proof (Z.div_mod (- (2 * n)) 5 ltac:(lia)) as D.
    pose proof (Z.mod_pos_bound (- (2 * n)) 5 ltac:(lia)) as B.
    lia.
Qed.

Lemma zero_words_iff_generate_refuses_text_witness :
  wordCount (lit "  ") = 0 /\ wordCount (lit " a ") <> 0.
Proof.
  split.
  - apply (proj1 (zero_words_iff_generate_refuses_text (lit "  "))).
    reflexivity.
  - intros H.
    apply (proj1 (proj1 (zero_words_iff_generate_refuses_text (lit " a "))))
      in H.
    discriminate.
Defined.

Lemma count_tokens_from_join (a b : jsstring) (c : code_unit) :
  is_ws c = true ->
  forall p, count_tokens_from p (a ++ c :: b)
            = count_tokens_from p a + count_tokens_from true b.
Proof.
  intros Hc. induction a as [|x a IH]; intros p; simpl.
  - now rewrite Hc.
  - destruct (is_ws x); rewrite IH; lia.
Qed.

(** X13: words add up across white space: the word count of two texts joined
    by a white-space code unit is the sum of their word counts. *)
Theorem wordCount_of_joined_texts (a b : jsstring) (c : code_unit) :
  is_ws c = true -> wordCount (a ++ c :: b) = wordCount a + wordCount b.
Proof.
  intros Hc. rewrite !wordCount_count_tokens. unfold count_tokens.
  now apply count_tokens_from_join.
Qed.

Lemma wordCount_of_joined_texts_witness :
  wordCount (lit "one two" ++ 10%N :: lit " three ") = 2 + 1.
Proof.
  exact (wordCount_of_joined_texts (lit "one two") (lit " three ") 10%N
           eq_refl).
Defined.

(** ** The preview *)

(** The preview decoding leaves the page as it is and at most adds
    calls. *)
Lemma previewVoice_decode_world (nt : jsstring -> FetchResult) (r : Response)
  (w : World) :
  exists fl, snd (previewVoice_decode nt r w) = issueFetches fl w.
Proof.
  unfold previewVoice_decode.
  destruct (contentType_includes (content_type r) (lit "application/json"));
    [|exists []; simpl; now rewrite issueFetches_nil].
  unfold bind at 1, await_json. destruct (json_body r) as [j|];
    [|exists []; simpl; now rewrite issueFetches_nil].
  unfold ret at 1, bind at 1.
  pose proof (has_message_pure j w) as Hm.
  destruct (has_message j w) as [[[]| |] w1]; simpl in Hm; subst w1;
    try (exists []; simpl; now rewrite issueFetches_nil).
  unfold bind at 1.
  pose proof (message_content_pure j w) as Hc.
  destruct (message_content j w) as [[v| |] w1]; simpl in Hc; subst w1;
    try (exists []; simpl; now rewrite issueFetches_nil).
  destruct v as [| |b|q|s|elems|props];
    try (exists []; simpl; now rewrite issueFetches_nil).
  destruct (startsWith s (lit "data:audio")).
  - exists []. unfold bind.
    pose proof (decode_dataURI_pure s w) as Hd.
    destruct (decode_dataURI s w) as [[a| |] w1]; simpl in Hd; subst w1;
      simpl; now rewrite issueFetches_nil.
  - destruct (startsWith s (lit "http") || startsWith s (lit "https"));
      [|exists []; simpl; now rewrite issueFetches_nil].
    exists [AudioFetch s]. unfold bind.
    pose proof (fetch_audio_world nt s w) as Hf.
    destruct (fetch_audio nt s w) as [[a| |] w1]; simpl in Hf; subst w1;
      reflexivity.
Qed.

(** The [try] block of the preview, case by case. *)
Lemma previewVoice_try_cases (env : PreviewEnv) (w : World) :
  previewVoice_try env w =
  match pv_provider env with
  | Rejected => (Throw FetchRejected, w)
  | Resolved r =>
      if ok r then
        match previewVoice_decode (pv_net env) r w with
        | (Ret (Some blob), w1) =>
            match pv_play env with
            | Some true =>
                (Ret (Played (List.length (objectURLs w1))),
                 snd (createObjectURL blob w1))
            | Some false =>
                (Ret (PlayRejected (List.length (objectURLs w1))),
                 snd (createObjectURL blob w1))
            | None => (Pending, snd (createObjectURL blob w1))
            end
        | (Ret None, w1) => (Ret NoAudio, w1)
        | (Throw e, w1) => (Throw e, w1)
        | (Pending, w1) => (Pending, w1)
        end
      else (Ret NotOk, w)
  end.
Proof.
  unfold previewVoice_try, await_fetch.
  destruct (pv_provider env) as [|r]; [reflexivity|].
  unfold bind at 1, ret at 1. destruct (ok r); [|reflexivity].
  unfold bind at 1.
  destruct (previewVoice_decode (pv_net env) r w) as [[[blob|]| |] w1];
    try reflexivity.
  unfold bind, lift, await_play. simpl.
  destruct (pv_play env) as [[]|]; reflexivity.
Qed.

(** How the [try] block of the preview leaves the browser: the page state
    is untouched, calls may be added, and an object URL is registered
    exactly when playback was attempted. *)
Lemma previewVoice_try_world (env : PreviewEnv) (w : World) :
  let o := fst (previewVoice_try env w) in
  let w' := snd (previewVoice_try env w) in
  page_state w' = page_state w /\
  (exists fl, fetches w' = fetches w ++ fl) /\
  match o with
  | Ret (Played u) | Ret (PlayRejected u) =>
      u = List.length (objectURLs w) /\
      exists blob, objectURLs w' = objectURLs w ++ [blob]
  | Pending =>
      pv_play env = None /\
      exists blob, objectURLs w' = objectURLs w ++ [blob]
  | _ => objectURLs w' = objectURLs w
  end.
Proof.
  rewrite previewVoice_try_cases.
  destruct (pv_provider env) as [|r];
    [simpl; repeat split; exists []; now rewrite app_nil_r|].
  destruct (ok r);
    [|simpl; repeat split; exists []; now rewrite app_nil_r].
  destruct (previewVoice_decode_world (pv_net env) r w) as [fl Hw].
  pose proof (previewVoice_decode_settled (pv_net env) r w) as Hs.
  destruct (previewVoice_decode (pv_net env) r w) as [[[blob|]| |] w1];
    simpl in Hw, Hs; subst w1.
  - destruct (pv_play env) as [[]|]; simpl;
      (split; [reflexivity|]); (split; [now exists fl|]);
      (split; [reflexivity|now exists blob]).
  - simpl. repeat split. now exists fl.
  - simpl. repeat split. now exists fl.
  - contradiction.
Qed.

Lemma jsstring_eqb_eq (a b : jsstring) : jsstring_eqb a b = true <-> a = b.
Proof.
  unfold jsstring_eqb. destruct (list_eq_dec N.eq_dec a b); split;
    congruence.
Qed.

Lemma option_jsstring_eqb_spec (o : option jsstring) (b : jsstring) :
  option_jsstring_eqb o b = true <-> o = Some b.
Proof.
  destruct o as [a|]; simpl; [|split; discriminate].
  rewrite jsstring_eqb_eq. split; congruence.
Qed.

Lemma selectedVoice_id (value : jsstring) (voice : Voice) :
  selectedVoice value = Some voice -> v_id voice = value /\ In voice voices.
Proof.
  intros H. apply find_some in H as [Hin He].
  apply jsstring_eqb_eq in He. now split.
Qed.

(** X14: no event of the selector changes the state of the page or shows an
    alert: a preview, with its failures, is invisible to the page; and it
    never removes a call from the record. *)
Theorem preview_leaves_the_page_alone (e : AppEvent) (s : Selector) :
  (forall pe, e <> OnPage pe) ->
  page_state (browser (appStep e s)) = page_state (browser s) /\
  exists fl, fetches (browser (appStep e s)) = fetches (browser s) ++ fl.
Proof.
  intros Hn. destruct e as [pe|value|env|u]; simpl.
  - now destruct (Hn pe).
  - unfold previewButton.
    destruct (selectedVoice value) as [voice|];
      [|split; [reflexivity|exists []; now rewrite app_nil_r]].
    destruct (option_jsstring_eqb _ _);
      [split; [reflexivity|exists []; now rewrite app_nil_r]|].
    simpl. split; [reflexivity|]. now eexists.
  - unfold previewVoice_resume.
    pose proof (previewVoice_try_world env (browser s)) as F. cbv zeta in F.
    destruct (previewVoice_try env (browser s)) as [[[| |u|u]|x|] w'];
      simpl in *; destruct F as (F1 & F2 & _); now split.
  - unfold audioEnded. destruct (existsb _ _); simpl;
      (split; [reflexivity|exists []; now rewrite app_nil_r]).
Qed.

Lemma preview_leaves_the_page_alone_witness :
  page_state
    (browser (appStep (PreviewSettles (pv_env Rejected (Some true)))
                busySelector))
  = page_state (browser busySelector).
Proof.
  apply (preview_leaves_the_page_alone
           (PreviewSettles (pv_env Rejected (Some true))) busySelector).
  intros pe. discriminate.
Defined.



(** X16: the Preview button: without a voice of the catalog selected there is
    none; it is disabled exactly while the selected voice is the one being
    previewed; otherwise a click issues one more provider request for the
    selected voice, also while the preview of another voice or a generation
    is in flight, and marks the selected voice as the one being
    previewed. *)
Theorem preview_button_guards_the_same_voice_only (value : jsstring)
  (s : Selector) :
  (selectedVoice value = None -> previewButton value s = s) /\
  (selectedVoice value <> None -> previewingVoice s = Some value ->
   previewButton value s = s) /\
  (selectedVoice value <> None -> previewingVoice s <> Some value ->
   previewButton value s = previewVoice value s /\
   previewingVoice (previewButton value s) = Some value /\
   provider_calls (browser (previewButton value s))
   = S (provider_calls (browser s))).
Proof.
  unfold previewButton.
  destruct (selectedVoice value) as [voice|] eqn:E.
  - apply selectedVoice_id in E as [E _]. rewrite E.
    pose proof (option_jsstring_eqb_spec (previewingVoice s) value) as B.
    destruct (option_jsstring_eqb (previewingVoice s) value).
    + split; [discriminate|]. split; [reflexivity|].
      intros _ H. destruct H. now apply B.
    + split; [discriminate|]. split.
      * intros _ H. apply B in H. discriminate.
      * intros _ _. split; [reflexivity|]. split; [reflexivity|].
        unfold provider_calls. simpl. rewrite filter_app, length_app.
        simpl. lia.
  - split; [reflexivity|]. split; intros H; now destruct H.
Qed.

Lemma preview_button_guards_the_same_voice_only_witness :
  previewButton (lit "domi") busySelector = busySelector /\
  provider_calls (browser (previewButton (lit "sam") busySelector)) = 3 /\
  previewButton (lit "nobody") busySelector = busySelector.
Proof.
  pose proof (preview_button_guards_the_same_voice_only (lit "domi")
                busySelector) as (_ & Hd & _).
  pose proof (preview_button_guards_the_same_voice_only (lit "sam")
                busySelector) as (_ & _ & Hs).
  pose proof (preview_button_guards_the_same_voice_only (lit "nobody")
                busySelector) as (Hn & _).
  split; [apply Hd; [discriminate|reflexivity]|].
  split; [|apply Hn; reflexivity].
  destruct Hs as (_ & _ & ->); [discriminate|discriminate|reflexivity].
Defined.

(** ** Object URLs across the page and the selector *)

Lemma In_firstn {A} (n : nat) (l : list A) (x : A) :
  In x (firstn n l) -> In x l.
Proof.
  intros H. rewrite <- (firstn_skipn n l). apply in_or_app. now left.
Qed.

Lemma heldURLs_same (w w' : World) :
  audioHistory w' = audioHistory w -> currentAudio w' = currentAudio w ->
  heldURLs w' = heldURLs w.
Proof. intros H1 H2. unfold heldURLs. now rewrite H1, H2. Qed.

Lemma heldURLs_page_state (w w' : World) :
  page_state w' = page_state w -> heldURLs w' = heldURLs w.
Proof.
  unfold page_state. intros [= _ _ _ H1 H2 _ _ _ _]. now apply heldURLs_same.
Qed.

(** An object URL that the page holds after an event was held before it,
    or has just been registered. *)
Lemma step_heldURLs (e : Event) (w : World) (u : nat) :
  In u (heldURLs (step e w)) ->
  In u (heldURLs w) \/
  (u = List.length (objectURLs w) /\
   List.length (objectURLs (step e w)) = S u).
Proof.
  destruct e; simpl.
  - destruct (generateVoice_keeps w) as (H1 & H2 & _).
    rewrite (heldURLs_same _ _ H1 H2). now left.
  - destruct (intervalFires_keeps id random w) as (H1 & H2 & _).
    rewrite (heldURLs_same _ _ H1 H2). now left.
  - pose proof (providerSettles_facts i env w) as F. cbv zeta in F.
    destruct F as [_ F].
    destruct (fst (providerSettles i env w)) as [[a|x|]|].
    + destruct F as (H1 & H2 & H3 & H4 & _). unfold heldURLs at 1.
      rewrite H1, H2. cbn [List.map]. intros Hin.
      apply in_app_iff in Hin as [[Hin|Hin]|[Hin|[]]].
      * right. split; congruence.
      * left. unfold heldURLs. apply in_app_iff. left.
        apply in_map_iff in Hin as (b & Hb & Hin).
        apply in_map_iff. exists b. split; [exact Hb|].
        now apply (In_firstn 9).
      * right. split; congruence.
    + destruct F as (H1 & H2 & _). rewrite (heldURLs_same _ _ H1 H2).
      now left.
    + destruct F as (H1 & H2). rewrite (heldURLs_same _ _ H1 H2). now left.
    + destruct F as (H1 & H2). rewrite (heldURLs_same _ _ H1 H2). now left.
  - now left.
  - now left.
  - unfold historySelected.
    destruct (nth_error (audioHistory w) i) as [a|] eqn:E; [|now left].
    unfold heldURLs. simpl. intros Hin. left.
    apply in_app_iff in Hin as [Hin|[<-|[]]].
    + apply in_app_iff. now left.
    + apply in_app_iff. left. apply in_map. now apply (nth_error_In _ i).
Qed.

Lemma urls_ok_pointwise (s : Selector) :
  urls_ok s <->
  (forall u, In u (heldURLs (browser s)) \/ In u (playing s) \/
             In u (revoked s) ->
             u < List.length (objectURLs (browser s))) /\
  NoDup (playing s ++ revoked s) /\
  (forall u, In u (heldURLs (browser s)) ->
             ~ In u (playing s) /\ ~ In u (revoked s)).
Proof.
  unfold urls_ok. rewrite Forall_forall. split.
  - intros (A & B & C). split; [|split; [exact B|]].
    + intros u Hu. apply A. rewrite !in_app_iff. tauto.
    + intros u Hu. specialize (C u Hu). rewrite in_app_iff in C. tauto.
  - intros (A & B & C). split; [|split; [exact B|]].
    + intros u Hu. apply A. rewrite !in_app_iff in Hu. tauto.
    + intros u Hu. specialize (C u Hu). rewrite in_app_iff. tauto.
Qed.

Lemma urls_ok_onPage (e : Event) (s : Selector) :
  urls_ok s -> urls_ok (onPage e s).
Proof.
  rewrite !urls_ok_pointwise. intros (A & B & C). simpl.
  pose proof (step_objectURLs e (browser s)) as Hm.
  split; [|split; [exact B|]].
  - intros u [Hu|Hu].
    + apply step_heldURLs in Hu as [Hu|[_ Hu]]; [|lia].
      specialize (A u (or_introl Hu)). lia.
    + specialize (A u (or_intror Hu)). lia.
  - intros u Hu. apply step_heldURLs in Hu as [Hu|[Hu _]]; [now apply C|].
    split; intros Hin.
    + specialize (A u (or_intror (or_introl Hin))). lia.
    + specialize (A u (or_intror (or_intror Hin))). lia.
Qed.

Lemma urls_ok_previewButton (value : jsstring) (s : Selector) :
  urls_ok s -> urls_ok (previewButton value s).
Proof.
  unfold previewButton. destruct (selectedVoice value) as [voice|]; [|auto].
  destruct (option_jsstring_eqb _ _); auto.
Qed.

Lemma urls_ok_resume (env : PreviewEnv) (s : Selector) :
  urls_ok s -> urls_ok (previewVoice_resume env s).
Proof.
  rewrite !urls_ok_pointwise. intros (A & B & C).
  unfold previewVoice_resume.
  pose proof (previewVoice_try_world env (browser s)) as F. cbv zeta in F.
  destruct (previewVoice_try env (browser s)) as [o w']. simpl in F.
  destruct F as (F1 & _ & F3). apply heldURLs_page_state in F1.
  assert (Hm : List.length (objectURLs (browser s))
               <= List.length (objectURLs w')).
  { destruct o as [[| |u|u]|x|]; try (rewrite F3; lia);
      destruct F3 as (_ & blob & ->); rewrite length_app; simpl; lia. }
  assert (Keep : forall pv,
             urls_ok (mkSelector pv (playing s) (revoked s) w')).
  { intros pv. rewrite urls_ok_pointwise. simpl. rewrite F1.
    split; [|split; [exact B|exact C]].
    intros u Hu. specialize (A u Hu). lia. }
  destruct o as [[| |u|u]|x|]; try (rewrite <- urls_ok_pointwise; apply Keep).
  simpl. rewrite F1. destruct F3 as (-> & blob & F3). rewrite F3.
  rewrite length_app. simpl. split; [|split].
  - intros u [Hu|[Hu|Hu]].
    + specialize (A u (or_introl Hu)). lia.
    + apply in_app_iff in Hu as [Hu|[<-|[]]]; [|lia].
      specialize (A u (or_intror (or_introl Hu))). lia.
    + specialize (A u (or_intror (or_intror Hu))). lia.
  - rewrite <- app_assoc. simpl.
    apply (NoDup_Add (Add_app _ (playing s) (revoked s))). split.
    + exact B.
    + intros Hin. apply in_app_iff in Hin.
      assert (H : List.length (objectURLs (browser s))
                  < List.length (objectURLs (browser s)))
        by (apply A; tauto).
      lia.
  - intros u Hu. destruct (C u Hu) as [C1 C2]. split; [|exact C2].
    intros Hin. apply in_app_iff in Hin as [Hin|[<-|[]]]; [contradiction|].
    specialize (A _ (or_introl Hu)). lia.
Qed.

Lemma urls_ok_audioEnded (u : nat) (s : Selector) :
  urls_ok s -> urls_ok (audioEnded u s).
Proof.
  unfold audioEnded. destruct (existsb (Nat.eqb u) (playing s)) eqn:E; [|auto].
  apply existsb_exists in E as (x & Hx & Ex). apply Nat.eqb_eq in Ex. subst x.
  rewrite !urls_ok_pointwise. intros (A & B & C). simpl.
  split; [|split].
  - intros v [Hv|[Hv|Hv]].
    + apply A. now left.
    + apply filter_In in Hv as [Hv _]. apply A. tauto.
    + apply in_app_iff in Hv as [Hv|[<-|[]]]; apply A; tauto.
  - rewrite app_assoc. apply NoDup_app.
    + apply NoDup_app.
      * apply NoDup_filter. now apply NoDup_app_remove_r in B.
      * now apply NoDup_app_remove_l in B.
      * intros v Hv Hr. apply filter_In in Hv as [Hv _].
        apply in_split in Hv as (l1 & l2 & Hv). rewrite Hv in B.
        rewrite <- app_assoc in B. simpl in B.
        apply NoDup_remove_2 in B. apply B.
        rewrite !in_app_iff. tauto.
    + constructor; [intros []|constructor].
    + intros v Hv [<-|[]]. apply in_app_iff in Hv as [Hv|Hv].
      * apply filter_In in Hv as [_ Hv]. now rewrite Nat.eqb_refl in Hv.
      * apply in_split in Hx as (l1 & l2 & Hx). rewrite Hx in B.
        rewrite <- app_assoc in B. simpl in B.
        apply NoDup_remove_2 in B. apply B.
        rewrite !in_app_iff. tauto.
  - intros v Hv. destruct (C v Hv) as [C1 C2]. split.
    + intros Hin. apply filter_In in Hin as [Hin _]. contradiction.
    + intros Hin. apply in_app_iff in Hin as [Hin|[<-|[]]]; contradiction.
Qed.

Lemma urls_ok_run (es : list AppEvent) (s : Selector) :
  urls_ok s -> urls_ok (appRun es s).
Proof.
  revert s. induction es as [|e es IH]; intros s H; [exact H|].
  simpl. apply IH. destruct e; simpl.
  - now apply urls_ok_onPage.
  - now apply urls_ok_previewButton.
  - now apply urls_ok_resume.
  - now apply urls_ok_audioEnded.
Qed.

(** X17: whatever the page and the selector do, in any order: every object URL
    that the page holds, in an entry of its history or in its current
    audio, is registered and is neither revoked nor one of the preview's;
    what the selector revokes are URLs that its own previews registered and
    played, each at most once. *)
Theorem preview_never_revokes_audio_of_the_page (es : list AppEvent) :
  let s := appRun es initialSelector in
  NoDup (revoked s) /\
  (forall u, In u (heldURLs (browser s)) ->
             u < List.length (objectURLs (browser s)) /\
             ~ In u (revoked s) /\ ~ In u (playing s)) /\
  (forall u, In u (revoked s) ->
             u < List.length (objectURLs (browser s)) /\ ~ In u (playing s)).
Proof.
  assert (I : urls_ok initialSelector).
  { rewrite urls_ok_pointwise. simpl. split; [|split].
    - intros u [[]|[[]|[]]].
    - constructor.
    - intros u []. }
  pose proof (urls_ok_run es initialSelector I) as H.
  cbv zeta. set (s := appRun es initialSelector) in *.
  pose proof H as (A & B & C)%urls_ok_pointwise.
  split; [now apply NoDup_app_remove_l in B|]. split.
  - intros u Hu. destruct (C u Hu) as [C1 C2]. split; [|now split].
    apply A. now left.
  - intros u Hu. split; [apply A; tauto|].
    intros Hp. apply in_split in Hp as (l1 & l2 & Hp). rewrite Hp in B.
    rewrite <- app_assoc in B. simpl in B. apply NoDup_remove_2 in B.
    apply B. rewrite !in_app_iff. tauto.
Qed.

(** ** The catalog *)

(** X18: looking a voice up by its id finds that very voice, for every voice of
    the catalog, no two of them sharing an id; and what the lookup finds
    has the id looked up.  The voice the page starts with, which is also
    the voice both requests fall back on, is in the catalog, and so are the
    popular voices. *)
Theorem catalog_lookup_round_trip :
  (forall voice, In voice voices -> selectedVoice (v_id voice) = Some voice) /\
  (forall value voice,
      selectedVoice value = Some voice ->
      v_id voice = value /\ In voice voices) /\
  NoDup (List.map v_id voices) /\
  selectedVoice (vs_voice initialVoiceSettings) <> None /\
  selectedVoice (or_string [] (lit "rachel")) <> None /\
  incl popularVoices voices.
Proof.
  split; [|split; [|split; [|split; [|split]]]].
  - intros voice H. unfold voices in H. simpl in H.
    repeat (destruct H as [<-|H]; [vm_compute; reflexivity|]).
    contradiction.
  - apply selectedVoice_id.
  - vm_compute.
    repeat (constructor; [simpl; intuition discriminate|]). constructor.
  - vm_compute. discriminate.
  - vm_compute. discriminate.
  - intros v H. unfold popularVoices in H. now apply In_firstn in H.
Qed.

Lemma catalog_lookup_round_trip_witness :
  selectedVoice (lit "antoni") = Some antoni.
Proof.
  apply (proj1 catalog_lookup_round_trip antoni).
  unfold voices, antoni. simpl. tauto.
Defined.

(** ** Witnesses of the bounds of the progress and of the reset on exit *)


Lemma exit_resets_witness :
  isGenerating (snd (generateVoice_resume typedClosure env_http_error
                       (generateVoice typedWorld))) = false /\
  generationProgress (snd (generateVoice_resume typedClosure env_http_error
                             (generateVoice typedWorld))) = 0%Q /\
  ~ In 0%N (intervals (snd (generateVoice_resume typedClosure env_http_error
                              (generateVoice typedWorld)))).
Proof.
  destruct (exit_resets typedClosure env_http_error (generateVoice typedWorld))
    as (H1 & H2 & H3).
  - vm_compute. discriminate.
  - split; [exact H1|]. split; [exact H2|]. apply H3. discriminate.
Defined.

(** ** Witnesses of the invariants *)

Lemma at_most_one_generation_in_flight_witness :
  isGenerating
    (run (TextEdited (lit "hello world") :: ClickGenerate :: impatient)
       initialWorld) = true.
Proof.
  apply (proj2 (at_most_one_generation_in_flight
                  (TextEdited (lit "hello world") :: ClickGenerate
                   :: impatient))).
  vm_compute. discriminate.
Defined.

Lemma preview_never_revokes_audio_of_the_page_witness :
  revoked (appRun mixed_session initialSelector) = [0] /\
  heldURLs (browser (appRun mixed_session initialSelector)) = [3; 1; 3] /\
  ~ In 1 (revoked (appRun mixed_session initialSelector)).
Proof.
  split; [vm_compute; reflexivity|]. split; [vm_compute; reflexivity|].
  apply (proj1 (proj2 (preview_never_revokes_audio_of_the_page mixed_session))
           1).
  vm_compute. tauto.
Defined.
